(** * A fixed-arena memory allocator: shallow embedding of myalloc.c and list.c

    The C program keeps one global [struct Myalloc]: a malloc'ed byte arena,
    two singly linked lists of chunk descriptors (free and allocated), and two
    cached counters.  Every chunk is preceded by an 8-byte header whose first
    byte is what the allocator reads and writes as "the size".

    Conventions of the embedding:
    - addresses are byte offsets (in [Z]) from the pointer returned by
      [malloc] in [initialize_allocator]; the first payload is at offset 8;
    - the arena is a total map from offsets to unsigned bytes; [char] is the
      signed 8-bit type of the usual x86 ABI, 8-byte words are little endian;
    - [int] values are modelled in [Z] without wrap-around: apart from the
      capacity given to [initialize_allocator] (taken to be below 2^31 - 63),
      every quantity the allocator computes is a sum of byte-sized numbers;
    - [malloc] is taken to succeed, and accesses outside the malloc'ed block
      are not told apart from accesses inside it (the C code checks neither);
    - a linked list is the list of the [block] fields of its nodes, and a node
      pointer into a list is the position of the node ([None] is [NULL]);
    - a call that does not return normally (failed [assert], dereference of
      [NULL], read of an uninitialised variable, write past a caller's array)
      yields [None]; the loop of [compact_allocation] takes a bound on its
      number of passes and also yields [None] when the bound is reached. *)

From stdpp Require Import base tactics option list numbers.
From Stdlib Require Import ZArith Lia.
From Stdlib Require Sorted.

Local Open Scope Z_scope.

(** ** list.h, myalloc.h *)

Definition HEADER_SIZE : Z := 8.

Inductive allocation_algorithm := FIRST_FIT | BEST_FIT | WORST_FIT.

(** ** The byte arena *)

Module Mem.

Definition heap := Z -> Z.

(** [memset(ptr, 0, total_size)] *)
Definition zeroed : heap := fun _ => 0.

Definition store_byte (h : heap) (a b : Z) : heap :=
  fun x => if x =? a then b else h x.

(** Conversion of an [int] to the byte that a [char] store leaves in memory,
    and of a byte in memory to the value a [char] load yields. *)
Definition to_byte (v : Z) : Z := v mod 256.
Definition to_char (b : Z) : Z := if b <? 128 then b else b - 256.

(** [*(char* )a] *)
Definition load_char (h : heap) (a : Z) : Z := to_char (h a).

(** [*(char* )a = v] *)
Definition store_char (h : heap) (a v : Z) : heap := store_byte h a (to_byte v).

(** [*(size_t* )a = v], eight bytes, least significant first *)
Fixpoint store_le (n : nat) (h : heap) (a v : Z) : heap :=
  match n with
  | O => h
  | S n' => store_le n' (store_byte h a (v mod 256)) (a + 1) (v / 256)
  end.

Definition store_size_t (h : heap) (a v : Z) : heap := store_le 8 h a v.

(** [memmove(dest, src, n)]: the [n] bytes are read before any is written *)
Definition memmove (h : heap) (dest src n : Z) : heap :=
  fun x => if (dest <=? x) && (x <? dest + n) then h (src + (x - dest)) else h x.

End Mem.

(** The expression [abs( *((char* )block - HEADER_SIZE))], by which every
    function of myalloc.c obtains the size of the chunk at [block]. *)
Definition chunk_size (h : Mem.heap) (block : Z) : Z :=
  Z.abs (Mem.load_char h (block - HEADER_SIZE)).

(** The expression [*((char* )block - HEADER_SIZE)] without [abs], as it occurs
    in the comparisons of BEST_FIT and WORST_FIT. *)
Definition header_char (h : Mem.heap) (block : Z) : Z :=
  Mem.load_char h (block - HEADER_SIZE).

(** [*((char* )block - HEADER_SIZE) = v] *)
Definition set_header (h : Mem.heap) (block v : Z) : Mem.heap :=
  Mem.store_char h (block - HEADER_SIZE) v.

(** ** list.c *)

Fixpoint List_findNode (head : list Z) (block : Z) : option nat :=
  match head with
  | [] => None
  | b :: next => if b =? block then Some 0%nat else S <$> List_findNode next block
  end.

Definition List_countNodes (head : list Z) : Z := Z.of_nat (length head).

(** The node inserted is always a fresh [List_createNode(block)]. *)
Definition List_insertHead (head : list Z) (block : Z) : list Z :=
  match head with
  | [] => [block]
  | _ => match List_findNode head block with
         | Some _ => head
         | None => block :: head
         end
  end.

(** [node] is [NULL] or a node of [head].  With one node in the list the list
    is emptied whatever [node] is; otherwise [node->next] is read. *)
Definition List_deleteNode (head : list Z) (node : option nat) : option (list Z) :=
  if List_countNodes head =? 1 then Some []
  else match node with
       | None => None
       | Some O => Some (tail head)
       | Some i => Some (delete i head)
       end.

(** ** The allocator state *)

Module Myalloc.

Record t := Build {
  aalgorithm : allocation_algorithm;
  size : Z;
  memory : Z;
  arena : Mem.heap;
  free_list : list Z;
  allocated_list : list Z;
  available_memory : Z;
  used_memory : Z
}.

Definition with_arena (s : t) (h : Mem.heap) : t :=
  Build (aalgorithm s) (size s) (memory s) h (free_list s) (allocated_list s)
        (available_memory s) (used_memory s).

Definition with_free_list (s : t) (l : list Z) : t :=
  Build (aalgorithm s) (size s) (memory s) (arena s) l (allocated_list s)
        (available_memory s) (used_memory s).

Definition with_allocated_list (s : t) (l : list Z) : t :=
  Build (aalgorithm s) (size s) (memory s) (arena s) (free_list s) l
        (available_memory s) (used_memory s).

Definition with_counters (s : t) (a u : Z) : t :=
  Build (aalgorithm s) (size s) (memory s) (arena s) (free_list s)
        (allocated_list s) a u.

End Myalloc.

Abbreviation state := Myalloc.t.

(** ** myalloc.c: statistics *)

Fixpoint sum_sizes (h : Mem.heap) (curr : list Z) (acc : Z) : Z :=
  match curr with
  | [] => acc
  | block :: next => sum_sizes h next (acc + chunk_size h block)
  end.

Definition available_memory (s : state) : Z :=
  sum_sizes (Myalloc.arena s) (Myalloc.free_list s) 0.

Definition used_memory (s : state) : Z :=
  sum_sizes (Myalloc.arena s) (Myalloc.allocated_list s) 0.

(** [myalloc.available_memory = available_memory();
     myalloc.used_memory = used_memory();] *)
Definition update_statistics (s : state) : state :=
  Myalloc.with_counters s (available_memory s) (used_memory s).

(** ** myalloc.c: initialize_allocator *)

Definition initialize_allocator (_size : Z) (_aalgorithm : allocation_algorithm)
  : option state :=
  if negb (0 <? _size) then None
  else
    let rounded_size := ((_size + 63) ÷ 64) * 64 in
    let memory := 0 + HEADER_SIZE in
    let h := Mem.store_size_t Mem.zeroed (memory - HEADER_SIZE) rounded_size in
    Some (Myalloc.Build _aalgorithm rounded_size memory h [memory] [] rounded_size 0).

(** ** myalloc.c: allocate *)

(** The three search loops of the [switch]; [curr] is the part of the free
    list still to visit, [ptr] the candidate found so far. *)
Fixpoint first_fit (h : Mem.heap) (_size : Z) (curr : list Z) : option Z :=
  match curr with
  | [] => None
  | block :: next =>
      let curr_free_size := chunk_size h block in
      if curr_free_size >=? _size then Some block
      else first_fit h _size next
  end.

Fixpoint best_fit (h : Mem.heap) (_size : Z) (curr : list Z) (ptr : option Z)
  : option Z :=
  match curr with
  | [] => ptr
  | block :: next =>
      let curr_free_size := chunk_size h block in
      best_fit h _size next
        (if curr_free_size >=? _size then
           match ptr with
           | None => Some block
           | Some p => if curr_free_size <? header_char h p then Some block else ptr
           end
         else ptr)
  end.

Fixpoint worst_fit (h : Mem.heap) (_size : Z) (curr : list Z) (ptr : option Z)
  : option Z :=
  match curr with
  | [] => ptr
  | block :: next =>
      let curr_free_size := chunk_size h block in
      worst_fit h _size next
        (if curr_free_size >=? _size then
           match ptr with
           | None => Some block
           | Some p => if curr_free_size >? header_char h p then Some block else ptr
           end
         else ptr)
  end.

Definition find_chunk (alg : allocation_algorithm) (h : Mem.heap) (_size : Z)
  (free_list : list Z) : option Z :=
  match alg with
  | FIRST_FIT => first_fit h _size free_list
  | BEST_FIT => best_fit h _size free_list None
  | WORST_FIT => worst_fit h _size free_list None
  end.

Definition allocate (_size : Z) (s : state) : option (option Z * state) :=
  if negb (0 <? _size) then None
  else
    match Myalloc.free_list s with
    | [] => Some (None, s)
    | _ =>
      match find_chunk (Myalloc.aalgorithm s) (Myalloc.arena s) _size
              (Myalloc.free_list s) with
      | None => Some (None, s)
      | Some ptr =>
          let s1 :=
            Myalloc.with_allocated_list s
              (List_insertHead (Myalloc.allocated_list s) ptr) in
          let ptr_free_size := chunk_size (Myalloc.arena s1) ptr in
          let leftover_free_space := ptr_free_size - _size in
          s2 ← (if leftover_free_space >? 8 then
                  let h1 := set_header (Myalloc.arena s1) ptr _size in
                  chunk_free ← List_findNode (Myalloc.free_list s1) ptr;
                  let block' := ptr + _size + HEADER_SIZE in
                  let free' := <[chunk_free := block']> (Myalloc.free_list s1) in
                  let h2 := set_header h1 block' (leftover_free_space - HEADER_SIZE) in
                  Some (Myalloc.with_free_list (Myalloc.with_arena s1 h2) free')
                else
                  free' ← List_deleteNode (Myalloc.free_list s1)
                            (List_findNode (Myalloc.free_list s1) ptr);
                  Some (Myalloc.with_free_list s1 free'));
          Some (Some ptr, update_statistics s2)
      end
    end.

(** ** myalloc.c: deallocate *)

(** First loop: the first node of the free list whose block is [target]. *)
Fixpoint right_scan (curr : list Z) (target : Z) : option nat :=
  match curr with
  | [] => None
  | block :: next =>
      if block =? target then Some 0%nat else S <$> right_scan next target
  end.

(** Second loop, started at the node [curr] where the first loop stopped. *)
Fixpoint left_scan (h : Mem.heap) (curr : list Z) (_ptr : Z) : option (nat * Z) :=
  match curr with
  | [] => None
  | block :: next =>
      let curr_size := chunk_size h block in
      if _ptr =? block + curr_size + HEADER_SIZE then Some (0%nat, block)
      else (fun r => (S (fst r), snd r)) <$> left_scan h next _ptr
  end.

Definition deallocate (_ptr : Z) (s : state) : option state :=
  let h := Myalloc.arena s in
  let _ptr_size := chunk_size h _ptr in
  match Myalloc.free_list s with
  | [] => Some s
  | _ =>
    match right_scan (Myalloc.free_list s) (_ptr + _ptr_size + HEADER_SIZE) with
    | Some curr =>
        block ← Myalloc.free_list s !! curr;
        let h1 := set_header h _ptr (_ptr_size + HEADER_SIZE + chunk_size h block) in
        free1 ← List_deleteNode (Myalloc.free_list s) (Some curr);
        let free2 := List_insertHead free1 _ptr in
        Some (update_statistics
                (Myalloc.with_free_list (Myalloc.with_arena s h1) free2))
    | None =>
      (* the first loop ran off the end of the list: [curr == NULL] *)
      let curr : list Z := [] in
      match left_scan h curr _ptr with
      | Some (i, block) =>
          let curr_size := chunk_size h block in
          let h1 := set_header h block (curr_size + HEADER_SIZE + chunk_size h _ptr) in
          free1 ← List_deleteNode (Myalloc.free_list s) (Some i);
          let free2 := List_insertHead free1 block in
          Some (update_statistics
                  (Myalloc.with_free_list (Myalloc.with_arena s h1) free2))
      | None =>
          allocated1 ← List_deleteNode (Myalloc.allocated_list s)
                         (List_findNode (Myalloc.allocated_list s) _ptr);
          let free1 := List_insertHead (Myalloc.free_list s) _ptr in
          Some (update_statistics
                  (Myalloc.with_free_list
                     (Myalloc.with_allocated_list s allocated1) free1))
      end
    end
  end.

(** ** myalloc.c: is_fragmented *)

(** The locals [current], [adjacent] and [has_adj] of the pair scan
    ([has_adj]: 0 = none, 1 = left, 2 = right). *)
Record adj := Adj {
  current : option nat;
  adjacent : option nat;
  has_adj : Z
}.

(** Inner loop: [curr_free] is node [i] with block [cb]; [curr_free_next]
    walks the nodes after it, starting at position [j].  There is no [break]:
    a later match overwrites an earlier one. *)
Fixpoint scan_next (h : Mem.heap) (cb size_curr_free : Z) (i j : nat)
  (curr_free_next : list Z) (a : adj) : adj :=
  match curr_free_next with
  | [] => a
  | nb :: rest =>
      let a1 :=
        if nb =? cb + size_curr_free + HEADER_SIZE
        then Adj (Some i) (Some j) 2 else a in
      let size_next_free := chunk_size h nb in
      let a2 :=
        if cb =? nb + size_next_free + HEADER_SIZE
        then Adj (Some i) (Some j) 1 else a1 in
      scan_next h cb size_curr_free i (S j) rest a2
  end.

(** Outer loop: [while (curr_free && (has_adj==0))]. *)
Fixpoint scan_free (h : Mem.heap) (i : nat) (curr_free : list Z) (a : adj) : adj :=
  match curr_free with
  | [] => a
  | cb :: next =>
      if has_adj a =? 0
      then scan_free h (S i) next
             (scan_next h cb (chunk_size h cb) i (S i) next a)
      else a
  end.

Definition is_fragmented (s : state) : option (bool * state) :=
  let num_free_nodes := List_countNodes (Myalloc.free_list s) in
  if num_free_nodes =? 0 then Some (false, s)
  else if num_free_nodes >? 1 then
    let a := scan_free (Myalloc.arena s) 0 (Myalloc.free_list s) (Adj None None 0) in
    s1 ← (if has_adj a =? 2 then
            adjacent_block ← adjacent a ≫= (Myalloc.free_list s !!.);
            current_block ← current a ≫= (Myalloc.free_list s !!.);
            let size_adj := chunk_size (Myalloc.arena s) adjacent_block in
            let size_current := chunk_size (Myalloc.arena s) current_block in
            let new_size := size_current + HEADER_SIZE + size_adj in
            let h1 := set_header (Myalloc.arena s) current_block new_size in
            free1 ← List_deleteNode (Myalloc.free_list s) (adjacent a);
            Some (Myalloc.with_free_list (Myalloc.with_arena s h1) free1)
          else Some s);
    s2 ← (if has_adj a =? 1 then
            adjacent_block ← adjacent a ≫= (Myalloc.free_list s1 !!.);
            current_block ← current a ≫= (Myalloc.free_list s1 !!.);
            let size_adj := chunk_size (Myalloc.arena s1) adjacent_block in
            let size_current := chunk_size (Myalloc.arena s1) current_block in
            let new_size := size_adj + HEADER_SIZE + size_current in
            let h1 := set_header (Myalloc.arena s1) adjacent_block new_size in
            free1 ← List_deleteNode (Myalloc.free_list s1) (current a);
            Some (Myalloc.with_free_list (Myalloc.with_arena s1 h1) free1)
          else Some s1);
    Some (true, s2)
  else
    curr_free ← head (Myalloc.free_list s);
    Some (existsb (fun curr_alloc => curr_free <? curr_alloc)
            (Myalloc.allocated_list s), s).

(** ** myalloc.c: compact_allocation *)

(** The node of the free list with the least block, the earliest one among
    equals ([leftmost_free] starts at the head and moves on [<]). *)
Fixpoint leftmost_scan (curr_free : list Z) (j : nat) (leftmost_free : nat * Z)
  : nat * Z :=
  match curr_free with
  | [] => leftmost_free
  | block :: next =>
      leftmost_scan next (S j)
        (if block <? snd leftmost_free then (j, block) else leftmost_free)
  end.

(** One pass through the body of [while (is_fragmented())]. *)
Definition compact_step (dest : option Z) (s : state) : option (option Z * state) :=
  match Myalloc.free_list s with
  | [] => None
  | b0 :: next =>
      let leftmost_free := leftmost_scan next 1 (0%nat, b0) in
      (* the [if (alloc_adj)] visits the head of the allocated list only *)
      let adjacent :=
        match Myalloc.allocated_list s with
        | [] => None
        | ab :: _ => if ab >? snd leftmost_free then Some ab else None
        end in
      match adjacent with
      | None => Some (dest, s)
      | Some adjacent_block =>
          let dest' := snd leftmost_free - HEADER_SIZE in
          let src := adjacent_block - HEADER_SIZE in
          let size_dest := Z.abs (Mem.load_char (Myalloc.arena s) dest') in
          let size_src := Z.abs (Mem.load_char (Myalloc.arena s) src) in
          let h1 := Mem.memmove (Myalloc.arena s) dest' src size_src in
          let end_where_new_free_starts := dest' + size_src + HEADER_SIZE in
          free1 ← List_deleteNode (Myalloc.free_list s) (Some (fst leftmost_free));
          match List_findNode free1 end_where_new_free_starts with
          | None =>
              let free2 := List_insertHead free1 end_where_new_free_starts in
              let h2 := set_header h1 end_where_new_free_starts size_dest in
              Some (Some dest', Myalloc.with_free_list (Myalloc.with_arena s h2) free2)
          | Some _ =>
              Some (Some dest', Myalloc.with_free_list (Myalloc.with_arena s h1) free1)
          end
      end
  end.

(** [while (is_fragmented()) { ... }]; the loop need not terminate, so the
    number of passes is bounded by [fuel] and [None] also stands for a loop
    that is still running when the fuel is spent. *)
Fixpoint compact_loop (fuel : nat) (dest : option Z) (s : state)
  : option (option Z * state) :=
  match fuel with
  | O => None
  | S fuel' =>
      '(fragmented, s1) ← is_fragmented s;
      if fragmented : bool then
        '(dest', s2) ← compact_step dest s1;
        compact_loop fuel' dest' s2
      else Some (dest, s1)
  end.

(** The caller's arrays [_before] and [_after]; an entry is [None] for [NULL]. *)
Record report := Report {
  _before : list (option Z);
  _after : list (option Z);
  compacted_size : nat
}.

(** The final walk over the allocated list; [done] are the nodes already
    rewritten, [update_alloc] the ones still to visit. *)
Fixpoint update_walk (dest : option Z) (update_alloc : list Z) (done : list Z)
  (r : report) : option (list Z * report) :=
  match update_alloc with
  | [] => Some (done, r)
  | block :: next =>
      d ← dest;
      let block' := d + HEADER_SIZE in
      if decide (compacted_size r < length (_before r)
                 ∧ compacted_size r < length (_after r))%nat then
        let r' :=
          Report (<[compacted_size r := Some block]> (_before r))
                 (<[compacted_size r := Some block']> (_after r))
                 (if block =? block' then compacted_size r
                  else S (compacted_size r)) in
        update_walk dest next (done ++ [block']) r'
      else None
  end.

Definition compact_allocation (fuel : nat) (_before0 _after0 : list (option Z))
  (s : state) : option (report * state) :=
  let r0 := Report _before0 _after0 0 in
  if Myalloc.used_memory s =? 0 then Some (r0, s)
  else if Myalloc.available_memory s =? 0 then Some (r0, s)
  else
    match Myalloc.allocated_list s, Myalloc.free_list s with
    | [], _ => Some (r0, s)
    | _, [] => Some (r0, s)
    | _, _ =>
        '(dest, s1) ← compact_loop fuel None s;
        '(allocated1, r) ← update_walk dest (Myalloc.allocated_list s1) [] r0;
        Some (r, update_statistics (Myalloc.with_allocated_list s1 allocated1))
    end.

(** * Specification vocabulary *)

(** Every cell of the arena holds a byte.  The zero-filled arena does, and
    every store of the allocator keeps it so. *)
Definition bytes_only (h : Mem.heap) : Prop := forall a, 0 <= h a < 256.

(** A chunk too small for a request, and a chunk of a list that can serve it. *)
Definition too_small (h : Mem.heap) (_size : Z) (block : Z) : Prop :=
  chunk_size h block < _size.

Definition eligible (h : Mem.heap) (_size : Z) (curr : list Z) (p : Z) : Prop :=
  p ∈ curr /\ _size <= chunk_size h p.


(** * Runs of the program *)

(** The state [initialize_allocator] builds for a capacity already rounded. *)
Definition fresh_arena (rounded_size : Z) (alg : allocation_algorithm) : state :=
  Myalloc.Build alg rounded_size 8
    (Mem.store_size_t Mem.zeroed 0 rounded_size) [8] [] rounded_size 0.

(** A call of the interface, and a sequence of calls run from a state.  The
    pointer returned by an [Allocate] is checked against the one the script
    expects, so that a script records both the calls and their results. *)
Inductive call :=
  | Allocate (_size : Z) (returned : option Z)
  | Deallocate (_ptr : Z)
  | Is_fragmented (returned : bool).

Definition step (c : call) (s : state) : option state :=
  match c with
  | Allocate _size returned =>
      '(ptr, s') ← allocate _size s;
      if decide (ptr = returned) then Some s' else None
  | Deallocate _ptr => deallocate _ptr s
  | Is_fragmented returned =>
      '(b, s') ← is_fragmented s;
      if decide (b = returned) then Some s' else None
  end.

Fixpoint run (cs : list call) (s : state) : option state :=
  match cs with
  | [] => Some s
  | c :: cs' => s' ← step c s; run cs' s'
  end.

Definition run_from (_size : Z) (alg : allocation_algorithm) (cs : list call)
  : option state :=
  s ← initialize_allocator _size alg; run cs s.

(** What a caller can observe of a state: the two lists with the size read
    from the header of each chunk, and the two statistics. *)
Definition sizes (h : Mem.heap) (l : list Z) : list (Z * Z) :=
  map (fun block => (block, chunk_size h block)) l.

Record observation := Observe {
  obs_free : list (Z * Z);
  obs_allocated : list (Z * Z);
  obs_available : Z;
  obs_used : Z
}.

Definition observe (s : state) : observation :=
  Observe (sizes (Myalloc.arena s) (Myalloc.free_list s))
          (sizes (Myalloc.arena s) (Myalloc.allocated_list s))
          (available_memory s) (used_memory s).

(** The state after [allocate(16)] on a fresh 128-byte arena. *)
Definition after_allocate_16 : state :=
  Myalloc.Build FIRST_FIT 128 8
    (set_header (set_header (Myalloc.arena (fresh_arena 128 FIRST_FIT)) 8 16) 32 104)
    [32] [8] 104 16.

(** Scripts used below; every address passed to [Deallocate] was returned by
    an earlier [Allocate] of the script and is in the allocated list when the
    call is made. *)
Definition script_merge_right : list call :=
  [Allocate 16 (Some 8); Deallocate 8].

Definition script_exhaust_one : list call :=
  [Allocate 64 (Some 8)].

Definition script_three_chunks : list call :=
  [Allocate 16 (Some 8); Allocate 16 (Some 32); Allocate 16 (Some 56); Deallocate 8].

Definition script_exhaust_two : list call :=
  [Allocate 28 (Some 8); Allocate 28 (Some 44)].

Definition script_hole_then_chunk : list call :=
  [Allocate 20 (Some 8); Allocate 40 (Some 36); Deallocate 8;
   Allocate 52 (Some 84); Deallocate 36; Is_fragmented true].

Definition script_three_free : list call :=
  [Allocate 4 (Some 8); Allocate 4 (Some 20); Allocate 4 (Some 32);
   Allocate 4 (Some 44);
   Deallocate 8; Deallocate 32; Deallocate 44; Deallocate 20].



(** * Vocabulary for the pair scan of is_fragmented *)

(** The chunk at [nb] starts where the chunk at [cb] ends. *)
Definition right_adjacent (h : Mem.heap) (cb nb : Z) : Prop :=
  nb = cb + chunk_size h cb + HEADER_SIZE.

(** Two chunks are mutually adjacent when one starts where the other ends. *)
Definition adjacent_pair (h : Mem.heap) (cb nb : Z) : Prop :=
  right_adjacent h cb nb \/ right_adjacent h nb cb.

#[global] Instance adjacent_pair_dec h cb nb : Decision (adjacent_pair h cb nb).
Proof. unfold adjacent_pair, right_adjacent. apply _. Defined.

(** The value [has_adj] takes for one pair of the scan. *)
Definition pair_kind (h : Mem.heap) (cb nb : Z) : Z :=
  if cb =? nb + chunk_size h nb + HEADER_SIZE then 1
  else if nb =? cb + chunk_size h cb + HEADER_SIZE then 2
  else 0.

Definition no_adjacent_pair (h : Mem.heap) (l : list Z) : Prop :=
  forall (i j : nat) cb nb,
    (i < j)%nat -> l !! i = Some cb -> l !! j = Some nb -> ~ adjacent_pair h cb nb.

(** The pair the scan settles on: [i] is the first position of the list with
    an adjacent chunk at a later position, and [j] is the last position after
    [i] whose chunk is adjacent to the one at [i]. *)
Definition scanned_pair (h : Mem.heap) (l : list Z) (i j : nat) (cb nb : Z) : Prop :=
  (i < j)%nat /\ l !! i = Some cb /\ l !! j = Some nb /\ adjacent_pair h cb nb /\
  (forall (i' j' : nat) c n,
     (i' < i)%nat -> (i' < j')%nat -> l !! i' = Some c -> l !! j' = Some n ->
     ~ adjacent_pair h c n) /\
  (forall (j' : nat) n, (j < j')%nat -> l !! j' = Some n -> ~ adjacent_pair h cb n).

(** The state after the chunk at [survivor] has absorbed its neighbour: its
    header holds the sum of both sizes and one header, and the descriptor at
    position [absorbed] is gone. *)
Definition merged (s : state) (survivor : Z) (new_size : Z) (absorbed : nat) : state :=
  Myalloc.with_free_list
    (Myalloc.with_arena s (set_header (Myalloc.arena s) survivor new_size))
    (delete absorbed (Myalloc.free_list s)).

(** What a call of [is_fragmented] in state [s] returns and leaves behind. *)
Inductive fragmented_outcome (s : state) : bool -> state -> Prop :=
  | outcome_empty :
      Myalloc.free_list s = [] ->
      fragmented_outcome s false s
  | outcome_single (b : Z) (r : bool) :
      Myalloc.free_list s = [b] ->
      (r = true <-> exists a, a ∈ Myalloc.allocated_list s /\ b < a) ->
      fragmented_outcome s r s
  | outcome_no_pair :
      (1 < length (Myalloc.free_list s))%nat ->
      no_adjacent_pair (Myalloc.arena s) (Myalloc.free_list s) ->
      fragmented_outcome s true s
  | outcome_merge_right (i j : nat) (cb nb : Z) :
      (1 < length (Myalloc.free_list s))%nat ->
      scanned_pair (Myalloc.arena s) (Myalloc.free_list s) i j cb nb ->
      right_adjacent (Myalloc.arena s) cb nb ->
      fragmented_outcome s true
        (merged s cb
           (chunk_size (Myalloc.arena s) cb + HEADER_SIZE
            + chunk_size (Myalloc.arena s) nb) j)
  | outcome_merge_left (i j : nat) (cb nb : Z) :
      (1 < length (Myalloc.free_list s))%nat ->
      scanned_pair (Myalloc.arena s) (Myalloc.free_list s) i j cb nb ->
      right_adjacent (Myalloc.arena s) nb cb ->
      fragmented_outcome s true
        (merged s nb
           (chunk_size (Myalloc.arena s) nb + HEADER_SIZE
            + chunk_size (Myalloc.arena s) cb) i).

(** The first mutually adjacent pair in traversal order: the least position
    [i] with an adjacent chunk after it, and the least such position [j]. *)
Fixpoint first_partner (h : Mem.heap) (cb : Z) (j : nat) (rest : list Z) : option nat :=
  match rest with
  | [] => None
  | nb :: rest' =>
      if bool_decide (adjacent_pair h cb nb) then Some j
      else first_partner h cb (S j) rest'
  end.

Fixpoint first_adjacent_pair (h : Mem.heap) (i : nat) (l : list Z) : option (nat * nat) :=
  match l with
  | [] => None
  | cb :: next =>
      match first_partner h cb (S i) next with
      | Some j => Some (i, j)
      | None => first_adjacent_pair h (S i) next
      end
  end.

(** * Vocabulary for the placement search *)

(** [p] is the first chunk of [l], in traversal order, that can serve a
    request of [_size] bytes. *)
Definition first_eligible (h : Mem.heap) (_size : Z) (l : list Z) (p : Z) : Prop :=
  exists i : nat,
    l !! i = Some p /\ _size <= chunk_size h p /\
    forall (j : nat) q, (j < i)%nat -> l !! j = Some q -> chunk_size h q < _size.

(** [p] is, among the chunks of [l] that can serve the request, one whose
    size has the least [key], and the earliest of those in traversal order. *)
Definition optimal_eligible (key : Z -> Z) (h : Mem.heap) (_size : Z) (l : list Z)
  (p : Z) : Prop :=
  exists i : nat,
    l !! i = Some p /\ _size <= chunk_size h p /\
    forall (j : nat) q,
      l !! j = Some q -> _size <= chunk_size h q ->
      key (chunk_size h p) <= key (chunk_size h q) /\
      ((j < i)%nat -> key (chunk_size h p) < key (chunk_size h q)).

(** The smallest, respectively largest, chunk that can serve the request,
    the earliest one on ties. *)
Definition smallest_eligible := optimal_eligible id.
Definition largest_eligible := optimal_eligible Z.opp.

(** The loops of BEST_FIT and WORST_FIT have one shape and differ in the
    direction of the comparison with the candidate: [key] is the identity for
    BEST_FIT and the negation for WORST_FIT. *)
Fixpoint fit_loop (key : Z -> Z) (h : Mem.heap) (_size : Z) (curr : list Z)
  (ptr : option Z) : option Z :=
  match curr with
  | [] => ptr
  | block :: next =>
      let curr_free_size := chunk_size h block in
      fit_loop key h _size next
        (if curr_free_size >=? _size then
           match ptr with
           | None => Some block
           | Some p =>
               if key curr_free_size <? key (header_char h p) then Some block else ptr
           end
         else ptr)
  end.

(** What the candidate of [fit_loop] is with respect to the part [pre] of
    the list already visited. *)
Definition candidate_ok (key : Z -> Z) (h : Mem.heap) (_size : Z) (pre : list Z)
  (ptr : option Z) : Prop :=
  match ptr with
  | None => Forall (too_small h _size) pre
  | Some p => optimal_eligible key h _size pre p
  end.

(** No header of the list holds a negative [char]. *)
Definition headers_nonnegative (h : Mem.heap) (l : list Z) : Prop :=
  Forall (fun block => 0 <= header_char h block) l.

(** * The rest of list.c *)

(** The node inserted is always a fresh [List_createNode(block)]. *)
Definition List_insertTail (head : list Z) (block : Z) : list Z :=
  match head with
  | [] => [block]
  | _ => match List_findNode head block with
         | Some _ => head
         | None => head ++ [block]
         end
  end.

(** The loop of [List_minNodePrev]: [curr] is node [j], [currPrev] the node
    before it, [min] the block of the least node so far and [minPrev] the
    node before that one. *)
Fixpoint minNodePrev_loop (curr : list Z) (j : nat) (currPrev : option nat)
  (min : Z) (minPrev : option nat) : option nat :=
  match curr with
  | [] => minPrev
  | block :: next =>
      if block <? min
      then minNodePrev_loop next (S j) (Some j) block currPrev
      else minNodePrev_loop next (S j) (Some j) min minPrev
  end.

(** The node before the first node with the least block; [NULL] when that
    node is the head, or the list is empty. *)
Definition List_minNodePrev (head : list Z) : option nat :=
  match head with
  | [] => None
  | b :: _ => minNodePrev_loop head 0 None b None
  end.

(** [minNodePrev] is a node of the list, at position [k]; the head and the
    node after [minNodePrev] change places.  [min->next] is read, so a
    [minNodePrev] without successor does not return. *)
Definition List_swapNode (head : list Z) (minNodePrev : nat) : option (list Z) :=
  b ← head !! 0%nat;
  m ← head !! S minNodePrev;
  Some (<[0%nat := m]> (<[S minNodePrev := b]> head)).

(** [List_sort] calls itself on [&( *headRef)->next], one node further down
    the list per call; [n] bounds the depth of these calls. *)
Fixpoint List_sort_depth (n : nat) (head : list Z) : option (list Z) :=
  match head with
  | [] => Some []
  | b :: next =>
      match n with
      | O => None
      | S n' =>
          head1 ← match List_minNodePrev head with
                  | None => next1 ← List_sort_depth n' next; Some (b :: next1)
                  | Some k => List_swapNode head k
                  end;
          match head1 with
          | [] => None
          | b1 :: next1 => next2 ← List_sort_depth n' next1; Some (b1 :: next2)
          end
      end
  end.

Definition List_sort (head : list Z) : option (list Z) :=
  List_sort_depth (length head) head.

(** [List_smallest_chunk] and [List_largest_chunk] read the header as a
    [char], without [abs]. *)
Fixpoint smallest_loop (h : Mem.heap) (curr : list Z) (min : Z) (min_size : Z) : Z :=
  match curr with
  | [] => min_size
  | block :: next =>
      if header_char h block <? header_char h min
      then smallest_loop h next block (header_char h block)
      else smallest_loop h next min min_size
  end.

Definition List_smallest_chunk (h : Mem.heap) (head : list Z) : Z :=
  match head with
  | [] => 0
  | b :: next => smallest_loop h next b (header_char h b)
  end.

Fixpoint largest_loop (h : Mem.heap) (curr : list Z) (max : Z) (max_size : Z) : Z :=
  match curr with
  | [] => max_size
  | block :: next =>
      if header_char h block >? header_char h max
      then largest_loop h next block (header_char h block)
      else largest_loop h next max max_size
  end.

Definition List_largest_chunk (h : Mem.heap) (head : list Z) : Z :=
  match head with
  | [] => 0
  | b :: next => largest_loop h next b (header_char h b)
  end.

(** * The rest of myalloc.c *)

(** The six numbers [print_statistics] prints, in the order of its lines. *)
Record statistics := Statistics {
  allocated_size : Z;
  allocated_chunks : Z;
  free_size : Z;
  free_chunks : Z;
  largest_free_chunk_size : Z;
  smallest_free_chunk_size : Z
}.

Definition print_statistics (s : state) : statistics :=
  Statistics (Myalloc.size s)
    (List_countNodes (Myalloc.allocated_list s))
    (Myalloc.available_memory s)
    (List_countNodes (Myalloc.free_list s))
    (List_largest_chunk (Myalloc.arena s) (Myalloc.free_list s))
    (List_smallest_chunk (Myalloc.arena s) (Myalloc.free_list s)).

(** The two loops of [destroy_allocator]: [curr] walks the nodes the list
    had at the start, and the node passed to [List_deleteNode] is the one
    [curr] just left, which is the head of what remains in [head]. *)
Fixpoint destroy_loop (curr : list Z) (head : list Z) : option (list Z) :=
  match curr with
  | [] => Some head
  | _ :: next =>
      head' ← List_deleteNode head (Some 0%nat);
      destroy_loop next head'
  end.

(** The arena is released; its contents are kept in the state but are no
    longer memory of the program. *)
Definition destroy_allocator (s : state) : option state :=
  allocated' ← destroy_loop (Myalloc.allocated_list s) (Myalloc.allocated_list s);
  free' ← destroy_loop (Myalloc.free_list s) (Myalloc.free_list s);
  Some (Myalloc.with_free_list (Myalloc.with_allocated_list s allocated') free').

(** * Further vocabulary *)

(** The cached counters agree with what the two list walks compute. *)
Definition in_sync (s : state) : Prop :=
  Myalloc.available_memory s = available_memory s /\
  Myalloc.used_memory s = used_memory s.

(** A script without [Is_fragmented]. *)
Definition allocator_call (c : call) : Prop :=
  match c with
  | Is_fragmented _ => False
  | _ => True
  end.

(** The node after [p], the head when [p] is [NULL]. *)
Definition node_after (p : option nat) : nat :=
  match p with
  | None => 0%nat
  | Some k => S k
  end.

(** The sum of the sizes read from the headers of the chunks of a list. *)
Definition total_size (h : Mem.heap) (l : list Z) : Z :=
  foldr (fun block acc => chunk_size h block + acc) 0 l.

(** What a successful [allocate(_size)] takes for a chunk read as [c] bytes
    long: the size the allocated chunk is read as afterwards, and the bytes
    that go into the header of the remainder. *)
Definition taken (c _size : Z) : Z := if decide (c - _size > 8) then _size else c.
Definition overhead (c _size : Z) : Z := if decide (c - _size > 8) then HEADER_SIZE else 0.

(** The address at which a chunk right after the chunk at [_ptr] starts, and
    the size of the two chunks merged into one. *)
Definition right_neighbour (h : Mem.heap) (_ptr : Z) : Z :=
  _ptr + chunk_size h _ptr + HEADER_SIZE.

Definition merged_size (h : Mem.heap) (_ptr : Z) : Z :=
  chunk_size h _ptr + HEADER_SIZE + chunk_size h (right_neighbour h _ptr).

(** The state a script leaves, for scripts that run to their end. *)
Definition state_after (cs : list call) (s : state) : state :=
  default s (run cs s).

(** A 128-byte arena after one and after two allocations of 16 bytes, and a
    64-byte arena used up by two allocations of 28 bytes. *)
Definition one_chunk : state :=
  state_after [Allocate 16 (Some 8)] (fresh_arena 128 FIRST_FIT).

Definition two_chunks : state :=
  state_after [Allocate 16 (Some 8); Allocate 16 (Some 32)] (fresh_arena 128 FIRST_FIT).

Definition exhausted : state :=
  state_after script_exhaust_two (fresh_arena 64 FIRST_FIT).

(** The calls of main.c up to [compact_allocation]: ten allocations of
    [sizeof(int)] bytes under BEST_FIT, then the chunks with odd index are
    deallocated, then the first one. *)
Definition main_script : list call :=
  [Allocate 4 (Some 8); Allocate 4 (Some 20); Allocate 4 (Some 32);
   Allocate 4 (Some 44); Allocate 4 (Some 56); Allocate 4 (Some 68);
   Allocate 4 (Some 80); Allocate 4 (Some 92); Allocate 4 (Some 104);
   Allocate 4 (Some 116);
   Deallocate 20; Deallocate 44; Deallocate 68; Deallocate 92; Deallocate 116;
   Deallocate 8].

Definition main_before_compaction : state :=
  state_after main_script (fresh_arena 128 BEST_FIT).

(** A hole in the middle: a chunk of 30 bytes is allocated and deallocated,
    and a chunk of 4 bytes is allocated in its place. *)
Definition script_hole_in_the_middle : list call :=
  [Allocate 30 (Some 8); Allocate 4 (Some 46); Deallocate 8; Allocate 4 (Some 8)].

Definition hole_in_the_middle : state :=
  state_after script_hole_in_the_middle (fresh_arena 128 FIRST_FIT).

(** A 128-byte arena with the free chunks 8 (16 bytes) and 80 (56 bytes). *)
Definition three_chunks : state :=
  state_after script_three_chunks (fresh_arena 128 FIRST_FIT).

(** * Properties *)

(** ** Bytes, headers and sizes *)

Lemma to_byte_range v : 0 <= Mem.to_byte v < 256.
Proof. unfold Mem.to_byte. apply Z.mod_pos_bound. lia. Qed.

Lemma load_store_char_eq h a v :
  Mem.load_char (Mem.store_char h a v) a = Mem.to_char (Mem.to_byte v).
Proof.
  unfold Mem.load_char, Mem.store_char, Mem.store_byte.
  by rewrite Z.eqb_refl.
Qed.

Lemma load_store_char_ne h a a' v :
  a' ≠ a -> Mem.load_char (Mem.store_char h a v) a' = Mem.load_char h a'.
Proof.
  intros Hne. unfold Mem.load_char, Mem.store_char, Mem.store_byte.
  destruct (Z.eqb_spec a' a); [done|done].
Qed.

Lemma chunk_size_set_header_eq h block v :
  chunk_size (set_header h block v) block = Z.abs (Mem.to_char (Mem.to_byte v)).
Proof. unfold chunk_size, set_header. by rewrite load_store_char_eq. Qed.

Lemma chunk_size_set_header_ne h block block' v :
  block' ≠ block -> chunk_size (set_header h block v) block' = chunk_size h block'.
Proof.
  intros Hne. unfold chunk_size, set_header.
  rewrite load_store_char_ne; [done|lia].
Qed.

Lemma chunk_size_range h block : 0 <= chunk_size h block.
Proof. unfold chunk_size. lia. Qed.

(** A size below 128 survives the trip through the one-byte header. *)
Lemma readback_small v : 0 <= v < 128 -> Z.abs (Mem.to_char (Mem.to_byte v)) = v.
Proof.
  intros Hv. unfold Mem.to_char, Mem.to_byte.
  rewrite Z.mod_small by lia.
  destruct (Z.ltb_spec v 128); lia.
Qed.


(** ** The placement search finds nothing when no chunk is large enough *)

Section NoFit.

Variables (h : Mem.heap) (_size : Z).

Lemma first_fit_none curr :
  Forall (too_small h _size) curr -> first_fit h _size curr = None.
Proof.
  induction 1 as [|block next Hb _ IH]; simpl; [done|].
  unfold too_small in Hb.
  destruct (Z.geb_spec (chunk_size h block) _size); [lia|done].
Qed.

Lemma best_fit_none curr :
  Forall (too_small h _size) curr -> best_fit h _size curr None = None.
Proof.
  induction 1 as [|block next Hb _ IH]; simpl; [done|].
  unfold too_small in Hb.
  destruct (Z.geb_spec (chunk_size h block) _size); [lia|done].
Qed.

Lemma worst_fit_none curr :
  Forall (too_small h _size) curr -> worst_fit h _size curr None = None.
Proof.
  induction 1 as [|block next Hb _ IH]; simpl; [done|].
  unfold too_small in Hb.
  destruct (Z.geb_spec (chunk_size h block) _size); [lia|done].
Qed.

Lemma find_chunk_none alg curr :
  Forall (too_small h _size) curr -> find_chunk alg h _size curr = None.
Proof.
  destruct alg; simpl;
    eauto using first_fit_none, best_fit_none, worst_fit_none.
Qed.

End NoFit.

(** C9. When no chunk of the free list has a size of at least the request
    (an empty free list included), [allocate] returns [NULL] and the state is
    the one it was called in: both lists, the arena and the two counters. *)
Theorem allocate_failure_no_mutation (s : state) (_size : Z) :
  0 < _size ->
  Forall (fun block => chunk_size (Myalloc.arena s) block < _size)
         (Myalloc.free_list s) ->
  allocate _size s = Some (None, s).
Proof.
  intros Hpos Hsmall. unfold allocate.
  destruct (Z.ltb_spec 0 _size) as [_|]; [simpl|lia].
  destruct (Myalloc.free_list s) as [|b l] eqn:Hfree; [done|].
  by rewrite (find_chunk_none _ _ _ _ Hsmall).
Qed.


Lemma bytes_only_zeroed : bytes_only Mem.zeroed.
Proof. intros a. unfold Mem.zeroed. lia. Qed.

Lemma bytes_only_store_byte h a b :
  bytes_only h -> 0 <= b < 256 -> bytes_only (Mem.store_byte h a b).
Proof.
  intros Hh Hb x. unfold Mem.store_byte. destruct (x =? a); [done|apply Hh].
Qed.

Lemma bytes_only_store_char h a v : bytes_only h -> bytes_only (Mem.store_char h a v).
Proof. intros Hh. apply bytes_only_store_byte; [done|apply to_byte_range]. Qed.

Lemma bytes_only_set_header h block v : bytes_only h -> bytes_only (set_header h block v).
Proof. apply bytes_only_store_char. Qed.

Lemma bytes_only_store_le n h a v : bytes_only h -> bytes_only (Mem.store_le n h a v).
Proof.
  revert h a v. induction n as [|n IH]; intros h a v Hh; simpl; [done|].
  apply IH, bytes_only_store_byte; [done|]. apply Z.mod_pos_bound. lia.
Qed.

Lemma bytes_only_memmove h dest src n : bytes_only h -> bytes_only (Mem.memmove h dest src n).
Proof. intros Hh x. unfold Mem.memmove. destruct (_ && _); apply Hh. Qed.

Lemma chunk_size_bound h block : bytes_only h -> 0 <= chunk_size h block <= 128.
Proof.
  intros Hh. unfold chunk_size, Mem.load_char, Mem.to_char.
  specialize (Hh (block - HEADER_SIZE)).
  destruct (Z.ltb_spec (h (block - HEADER_SIZE)) 128); lia.
Qed.

(** ** list.c: finding, deleting and inserting nodes *)

Lemma List_findNode_Some head block i :
  List_findNode head block = Some i ->
  head !! i = Some block /\ forall j b, (j < i)%nat -> head !! j = Some b -> b ≠ block.
Proof.
  revert i. induction head as [|b next IH]; intros i; simpl; [done|].
  destruct (Z.eqb_spec b block) as [->|Hne].
  - intros [= <-]. split; [done|]. intros j b' Hj. lia.
  - destruct (List_findNode next block) as [k|] eqn:Hk; simpl; [|done].
    intros [= <-]. destruct (IH k eq_refl) as [Hlook Hfirst]. split; [done|].
    intros [|j] b' Hj; simpl.
    + by intros [= <-].
    + apply Hfirst. lia.
Qed.

Lemma List_findNode_None head block :
  List_findNode head block = None <-> block ∉ head.
Proof.
  induction head as [|b next IH]; simpl.
  - split; [intros _; apply not_elem_of_nil|done].
  - destruct (Z.eqb_spec b block) as [->|Hne].
    + split; [done|]. intros Hnot. destruct Hnot. apply list_elem_of_here.
    + destruct (List_findNode next block) as [k|] eqn:Hk; simpl.
      * split; [done|]. intros Hnot. exfalso.
        assert (block ∉ next) as Hn by (intros Hin; apply Hnot; by apply list_elem_of_further).
        apply IH in Hn. done.
      * split; [|done]. intros _ Hin. apply elem_of_cons in Hin as [->|Hin]; [done|].
        by apply (proj1 IH).
Qed.

Lemma List_findNode_elem_of head block :
  block ∈ head -> exists i, List_findNode head block = Some i.
Proof.
  intros Hin. destruct (List_findNode head block) as [i|] eqn:Hf; [by exists i|].
  by apply List_findNode_None in Hf.
Qed.

(** Deleting a node that is in the list removes the node at its position. *)
Lemma List_deleteNode_lookup head i block :
  head !! i = Some block -> List_deleteNode head (Some i) = Some (delete i head).
Proof.
  intros Hlook. unfold List_deleteNode, List_countNodes.
  destruct (Z.eqb_spec (Z.of_nat (length head)) 1) as [Hone|Hmany].
  - destruct head as [|b [|b' l]]; simpl in *; try lia.
    destruct i; [done|]. by destruct i.
  - destruct i; [by destruct head|done].
Qed.

Lemma List_insertHead_elem_of head block : block ∈ List_insertHead head block.
Proof.
  unfold List_insertHead. destruct head as [|b l]; [apply list_elem_of_here|].
  destruct (List_findNode (b :: l) block) as [i|] eqn:Hf.
  - apply List_findNode_Some in Hf as [Hlook _]. by eapply list_elem_of_lookup_2.
  - apply list_elem_of_here.
Qed.

(** ** What the placement search returns is an eligible chunk of the free list *)

Section Eligible.

Variables (h : Mem.heap) (_size : Z).

Lemma first_fit_eligible curr p :
  first_fit h _size curr = Some p -> eligible h _size curr p.
Proof.
  induction curr as [|block next IH]; simpl; [done|].
  destruct (Z.geb_spec (chunk_size h block) _size) as [Hge|Hlt].
  - intros [= <-]. split; [apply list_elem_of_here|lia].
  - intros Hp. destruct (IH Hp) as [Hin Hsz]. split; [by apply list_elem_of_further|done].
Qed.

Lemma best_fit_eligible curr ptr p :
  best_fit h _size curr ptr = Some p -> eligible h _size curr p \/ ptr = Some p.
Proof.
  revert ptr. induction curr as [|block next IH]; intros ptr; simpl; [by right|].
  intros Hp. apply IH in Hp as [[Hin Hsz]|Hp].
  { left. split; [by apply list_elem_of_further|done]. }
  destruct (Z.geb_spec (chunk_size h block) _size) as [Hge|Hlt]; [|by right].
  destruct ptr as [q|].
  - destruct (chunk_size h block <? header_char h q); [|by right].
    injection Hp as <-. left. split; [apply list_elem_of_here|lia].
  - injection Hp as <-. left. split; [apply list_elem_of_here|lia].
Qed.

Lemma worst_fit_eligible curr ptr p :
  worst_fit h _size curr ptr = Some p -> eligible h _size curr p \/ ptr = Some p.
Proof.
  revert ptr. induction curr as [|block next IH]; intros ptr; simpl; [by right|].
  intros Hp. apply IH in Hp as [[Hin Hsz]|Hp].
  { left. split; [by apply list_elem_of_further|done]. }
  destruct (Z.geb_spec (chunk_size h block) _size) as [Hge|Hlt]; [|by right].
  destruct ptr as [q|].
  - destruct (chunk_size h block >? header_char h q); [|by right].
    injection Hp as <-. left. split; [apply list_elem_of_here|lia].
  - injection Hp as <-. left. split; [apply list_elem_of_here|lia].
Qed.

Lemma find_chunk_eligible alg curr p :
  find_chunk alg h _size curr = Some p -> eligible h _size curr p.
Proof.
  destruct alg; simpl; intros Hp.
  - by apply first_fit_eligible.
  - by apply best_fit_eligible in Hp as [?|?].
  - by apply worst_fit_eligible in Hp as [?|?].
Qed.

End Eligible.



(** ** initialize_allocator *)


Lemma bytes_only_fresh_arena n alg : bytes_only (Myalloc.arena (fresh_arena n alg)).
Proof. apply bytes_only_store_le, bytes_only_zeroed. Qed.

(** ** The one-byte header *)



Lemma readback_exact v : 0 <= v <= 128 -> Z.abs (Mem.to_char (Mem.to_byte v)) = v.
Proof.
  intros Hv. destruct (decide (v = 128)) as [->|Hne]; [done|].
  apply readback_small. lia.
Qed.



(** The example of C10: with a rounded capacity of 256 the free chunk is read
    as a chunk of size 0. *)
Example initialize_256_reads_0 :
  observe <$> run_from 256 FIRST_FIT [] = Some (Observe [(8, 0)] [] 0 0).
Proof. reflexivity. Qed.


(** Witness for C9. *)
Lemma allocate_failure_no_mutation_witness :
  0 < 65 /\
  Forall (fun block => chunk_size (Myalloc.arena (fresh_arena 64 BEST_FIT)) block < 65)
         (Myalloc.free_list (fresh_arena 64 BEST_FIT)) /\
  allocate 65 (fresh_arena 64 BEST_FIT) = Some (None, fresh_arena 64 BEST_FIT).
Proof.
  assert (0 < 65) as Hpos by lia.
  assert (Forall (fun block => chunk_size (Myalloc.arena (fresh_arena 64 BEST_FIT)) block < 65)
            (Myalloc.free_list (fresh_arena 64 BEST_FIT))) as Hsmall
    by (repeat constructor).
  split; [exact Hpos|]. split; [exact Hsmall|].
  exact (allocate_failure_no_mutation _ _ Hpos Hsmall).
Defined.


(** ** deallocate, branch by branch *)

(** With an empty free list [deallocate] returns at once. *)
Lemma deallocate_empty_free_list s _ptr :
  Myalloc.free_list s = [] -> deallocate _ptr s = Some s.
Proof. intros Hfree. unfold deallocate. by rewrite Hfree. Qed.

Lemma right_scan_Some curr target i :
  right_scan curr target = Some i -> curr !! i = Some target.
Proof.
  revert i. induction curr as [|b next IH]; intros i; simpl; [done|].
  destruct (Z.eqb_spec b target) as [->|Hne]; [by intros [= <-]|].
  destruct (right_scan next target) as [k|]; simpl; [|done].
  intros [= <-]. by apply IH.
Qed.

Lemma right_scan_None curr target :
  right_scan curr target = None <-> target ∉ curr.
Proof.
  induction curr as [|b next IH]; simpl.
  - split; [intros _; apply not_elem_of_nil|done].
  - rewrite not_elem_of_cons. destruct (Z.eqb_spec b target) as [->|Hne].
    + split; [done|]. by intros [? _].
    + destruct (right_scan next target) as [k|]; simpl.
      * split; [done|]. intros [_ Hnot]. by apply IH in Hnot.
      * split; [|done]. intros _. split; [done|]. by apply IH.
Qed.

(** When a free chunk starts right after the chunk at [_ptr], the merged
    chunk enters the free list and the allocated list is not touched. *)
Lemma deallocate_right_neighbour s _ptr i :
  right_scan (Myalloc.free_list s)
    (_ptr + chunk_size (Myalloc.arena s) _ptr + HEADER_SIZE) = Some i ->
  exists s',
    deallocate _ptr s = Some s' /\
    Myalloc.allocated_list s' = Myalloc.allocated_list s /\
    Myalloc.free_list s' = List_insertHead (delete i (Myalloc.free_list s)) _ptr.
Proof.
  intros Hscan. pose proof (right_scan_Some _ _ _ Hscan) as Hlook.
  unfold deallocate. rewrite Hscan, Hlook. simpl.
  destruct (Myalloc.free_list s) as [|b l] eqn:Hfree; [done|].
  rewrite (List_deleteNode_lookup _ _ _ Hlook). simpl.
  eexists. split; [reflexivity|]. done.
Qed.

(** So an address that was allocated is in both lists after that branch. *)
Lemma deallocate_right_neighbour_both_lists s _ptr i :
  _ptr ∈ Myalloc.allocated_list s ->
  right_scan (Myalloc.free_list s)
    (_ptr + chunk_size (Myalloc.arena s) _ptr + HEADER_SIZE) = Some i ->
  exists s',
    deallocate _ptr s = Some s' /\
    _ptr ∈ Myalloc.allocated_list s' /\ _ptr ∈ Myalloc.free_list s'.
Proof.
  intros Hin Hscan.
  destruct (deallocate_right_neighbour _ _ _ Hscan) as (s' & Hcall & Halloc & Hfree).
  exists s'. split; [done|]. rewrite Halloc, Hfree.
  split; [done|apply List_insertHead_elem_of].
Qed.

(** When no free chunk starts right after the chunk at [_ptr], the second
    loop has nothing to visit: the arena is not written, whatever lies to the
    left of [_ptr], and the chunk moves to the free list as it is. *)
Lemma deallocate_no_right_neighbour s s' _ptr :
  Myalloc.free_list s ≠ [] ->
  right_scan (Myalloc.free_list s)
    (_ptr + chunk_size (Myalloc.arena s) _ptr + HEADER_SIZE) = None ->
  deallocate _ptr s = Some s' ->
  Myalloc.arena s' = Myalloc.arena s /\
  Myalloc.free_list s' = List_insertHead (Myalloc.free_list s) _ptr /\
  List_deleteNode (Myalloc.allocated_list s)
    (List_findNode (Myalloc.allocated_list s) _ptr) = Some (Myalloc.allocated_list s').
Proof.
  intros Hne Hscan. unfold deallocate. rewrite Hscan.
  destruct (Myalloc.free_list s) as [|b l] eqn:Hfree; [done|]. simpl.
  destruct (List_deleteNode _ _) as [allocated1|]; simpl; [|done].
  by intros [= <-].
Qed.

(** Once the free list is empty no sequence of [deallocate] calls changes
    the state. *)
Lemma run_deallocate_exhausted s ptrs :
  Myalloc.free_list s = [] -> run (Deallocate <$> ptrs) s = Some s.
Proof.
  intros Hfree. induction ptrs as [|p ptrs IH]; simpl; [done|].
  by rewrite (deallocate_empty_free_list _ _ Hfree).
Qed.

(** * The claims about deallocate *)

(** C1.  [deallocate(p)] leaves [p] in the allocated list in two of its
    branches.  On a 128-byte arena, [p = allocate(16)] is 8 and the rest of
    the arena is the free chunk at 32 = 8 + 16 + 8: [deallocate(8)] merges to
    the right and 8 is afterwards in both lists.  On a 64-byte arena,
    [p = allocate(64)] empties the free list and [deallocate(8)] returns
    without any change. *)
Theorem deallocate_keeps_address_allocated :
  observe <$> run_from 100 FIRST_FIT [Allocate 16 (Some 8)]
    = Some (Observe [(32, 104)] [(8, 16)] 104 16) /\
  observe <$> run_from 100 FIRST_FIT script_merge_right
    = Some (Observe [(8, 128)] [(8, 128)] 128 128) /\
  observe <$> run_from 64 FIRST_FIT script_exhaust_one
    = Some (Observe [] [(8, 64)] 0 64) /\
  observe <$> run_from 64 FIRST_FIT (script_exhaust_one ++ [Deallocate 8])
    = Some (Observe [] [(8, 64)] 0 64).
Proof. repeat split; vm_compute; reflexivity. Qed.

(** C2.  After three allocations of 16 bytes and [deallocate(8)], the chunk
    at [p = 32] is allocated, the address 32 + 16 + 8 = 56 is not in the free
    list, and the free chunk [n = 8] of size 16 ends where the header of [p]
    starts (8 + 16 + 8 = 32).  [deallocate(32)] does not merge: the header of
    8 still reads 16, not 16 + 8 + 16 = 40, and 32 is a free chunk of its
    own. *)
Theorem deallocate_skips_left_neighbour :
  observe <$> run_from 100 FIRST_FIT script_three_chunks
    = Some (Observe [(8, 16); (80, 56)] [(56, 16); (32, 16)] 72 32) /\
  observe <$> run_from 100 FIRST_FIT (script_three_chunks ++ [Deallocate 32])
    = Some (Observe [(32, 16); (8, 16); (80, 56)] [(56, 16)] 88 16).
Proof. repeat split; vm_compute; reflexivity. Qed.

(** C3.  After [p = allocate(16)] and [deallocate(p)] on a 128-byte arena the
    address 8 is in both lists, so the same byte range is a free and an
    allocated chunk, and [used_memory() + available_memory()] is 256, twice
    the rounded capacity. *)
Theorem merge_right_breaks_invariants :
  (s ← run_from 100 FIRST_FIT script_merge_right;
   Some (observe s, Myalloc.size s,
         bool_decide (8 ∈ Myalloc.free_list s /\ 8 ∈ Myalloc.allocated_list s),
         bool_decide (used_memory s + available_memory s <= Myalloc.size s)))
  = Some (Observe [(8, 128)] [(8, 128)] 128 128, 128, true, false).
Proof. vm_compute. reflexivity. Qed.

(** C4.  Two allocations of 28 bytes use a 64-byte arena up exactly
    (28 + 8 + 28 = 64) and empty the free list.  Deallocating both chunks, in
    either order, changes nothing: no free chunk comes back and
    [available_memory()] stays 0.  The same happens with the one allocation
    of 64 bytes. *)
Theorem exhausted_arena_is_not_restored :
  observe <$> run_from 64 FIRST_FIT script_exhaust_two
    = Some (Observe [] [(44, 28); (8, 28)] 0 56) /\
  observe <$> run_from 64 FIRST_FIT (script_exhaust_two ++ [Deallocate 8; Deallocate 44])
    = Some (Observe [] [(44, 28); (8, 28)] 0 56) /\
  observe <$> run_from 64 FIRST_FIT (script_exhaust_two ++ [Deallocate 44; Deallocate 8])
    = Some (Observe [] [(44, 28); (8, 28)] 0 56) /\
  observe <$> run_from 64 FIRST_FIT (script_exhaust_one ++ [Deallocate 8])
    = Some (Observe [] [(8, 64)] 0 64).
Proof. repeat split; vm_compute; reflexivity. Qed.

(** * The claim about compact_allocation *)

(** C5.  The script leaves a 128-byte arena as one free hole [8, 76) followed
    by one allocated chunk of 52 bytes at 84, which ends with the arena at
    136.  [compact_allocation] returns 1 with the pair (84, 60), and
    [is_fragmented()] is false afterwards with one free chunk left; but the
    allocated payload now starts at 60, not at the first payload address 8,
    and the free chunk at 112 is read as 68 bytes long, past the end of the
    arena. *)
Theorem compaction_misses_the_prefix :
  observe <$> run_from 100 FIRST_FIT script_hole_then_chunk
    = Some (Observe [(8, 68)] [(84, 52)] 68 52) /\
  (s ← run_from 100 FIRST_FIT script_hole_then_chunk;
   '(r, s') ← compact_allocation 3 [None; None] [None; None] s;
   '(fragmented, _) ← is_fragmented s';
   Some (r, observe s', Myalloc.memory s', Myalloc.size s', fragmented))
  = Some (Report [Some 84; None] [Some 60; None] 1,
          Observe [(112, 68)] [(60, 52)] 68 52, 8, 128, false).
Proof. repeat split; vm_compute; reflexivity. Qed.

(** * The claim about the placement search *)


(** * The claim about is_fragmented *)

Section PairScan.

Variable h : Mem.heap.

(** A chunk cannot both follow and precede another: sizes are not negative. *)
Lemma right_adjacent_asym cb nb :
  right_adjacent h cb nb -> right_adjacent h nb cb -> False.
Proof.
  unfold right_adjacent, HEADER_SIZE. intros H1 H2.
  pose proof (chunk_size_range h cb). pose proof (chunk_size_range h nb). lia.
Qed.

Lemma pair_kind_0 cb nb : pair_kind h cb nb = 0 <-> ~ adjacent_pair h cb nb.
Proof.
  unfold pair_kind, adjacent_pair, right_adjacent.
  destruct (Z.eqb_spec cb (nb + chunk_size h nb + HEADER_SIZE));
    destruct (Z.eqb_spec nb (cb + chunk_size h cb + HEADER_SIZE)); intuition lia.
Qed.

Lemma pair_kind_1 cb nb : pair_kind h cb nb = 1 <-> right_adjacent h nb cb.
Proof.
  unfold pair_kind, right_adjacent.
  destruct (Z.eqb_spec cb (nb + chunk_size h nb + HEADER_SIZE));
    destruct (Z.eqb_spec nb (cb + chunk_size h cb + HEADER_SIZE)); intuition lia.
Qed.

Lemma pair_kind_2 cb nb : pair_kind h cb nb = 2 <-> right_adjacent h cb nb.
Proof.
  split.
  - unfold pair_kind, right_adjacent.
    destruct (Z.eqb_spec cb (nb + chunk_size h nb + HEADER_SIZE));
      destruct (Z.eqb_spec nb (cb + chunk_size h cb + HEADER_SIZE)); intuition lia.
  - intros Hr. unfold pair_kind.
    destruct (Z.eqb_spec cb (nb + chunk_size h nb + HEADER_SIZE)) as [Hl|_].
    + destruct (right_adjacent_asym cb nb Hr Hl).
    + unfold right_adjacent in Hr. by destruct (Z.eqb_spec nb (cb + chunk_size h cb + HEADER_SIZE)).
Qed.

Lemma pair_kind_cases cb nb :
  pair_kind h cb nb = 0 \/ pair_kind h cb nb = 1 \/ pair_kind h cb nb = 2.
Proof. unfold pair_kind. repeat destruct (_ =? _); auto. Qed.

(** One turn of the inner loop in terms of [pair_kind]. *)
Lemma scan_next_cons cb i j nb rest a :
  scan_next h cb (chunk_size h cb) i j (nb :: rest) a =
  scan_next h cb (chunk_size h cb) i (S j) rest
    (if pair_kind h cb nb =? 0 then a else Adj (Some i) (Some j) (pair_kind h cb nb)).
Proof.
  simpl. f_equal. unfold pair_kind.
  destruct (Z.eqb_spec cb (nb + chunk_size h nb + HEADER_SIZE));
    destruct (Z.eqb_spec nb (cb + chunk_size h cb + HEADER_SIZE)); done.
Qed.

(** The inner loop leaves the locals alone when no later chunk is adjacent,
    and otherwise records the last adjacent one. *)
Lemma scan_next_outcome cb i j rest a :
  let a' := scan_next h cb (chunk_size h cb) i j rest a in
  (a' = a /\ Forall (fun nb => pair_kind h cb nb = 0) rest) \/
  (exists (m : nat) nb,
     rest !! m = Some nb /\ pair_kind h cb nb ≠ 0 /\
     a' = Adj (Some i) (Some (j + m)%nat) (pair_kind h cb nb) /\
     forall (m' : nat) n, (m < m')%nat -> rest !! m' = Some n -> pair_kind h cb n = 0).
Proof.
  revert j a. induction rest as [|nb rest IH]; intros j a a'.
  { left. by split. }
  subst a'. rewrite scan_next_cons.
  destruct (IH (S j) (if pair_kind h cb nb =? 0 then a
                      else Adj (Some i) (Some j) (pair_kind h cb nb)))
    as [[Heq Hall]|(m & n & Hm & Hk & Heq & Hlast)].
  - destruct (Z.eqb_spec (pair_kind h cb nb) 0) as [H0|Hn0].
    + left. split; [done|]. by constructor.
    + right. exists 0%nat, nb. repeat split; try done.
      * rewrite Heq. by rewrite Nat.add_0_r.
      * intros [|m'] n' Hlt Hlook; [lia|]. simpl in Hlook.
        by eapply (proj1 (Forall_lookup _ _) Hall).
  - right. exists (S m), n. repeat split; try done.
    + rewrite Heq. by rewrite Nat.add_succ_r.
    + intros [|m'] n' Hlt Hlook; [lia|]. simpl in Hlook.
      apply (Hlast m' n'); [lia|done].
Qed.

Lemma scan_free_stop i l a : has_adj a ≠ 0 -> scan_free h i l a = a.
Proof.
  intros Hne. destruct l as [|cb next]; simpl; [done|].
  by destruct (Z.eqb_spec (has_adj a) 0).
Qed.

(** The outer loop: either no pair of the list is adjacent and the locals
    keep their initial values, or they hold the scanned pair. *)
Lemma scan_free_outcome i0 l :
  let a' := scan_free h i0 l (Adj None None 0) in
  (a' = Adj None None 0 /\ no_adjacent_pair h l) \/
  (exists (i j : nat) cb nb,
     scanned_pair h l i j cb nb /\
     a' = Adj (Some (i0 + i)%nat) (Some (i0 + j)%nat) (pair_kind h cb nb)).
Proof.
  revert i0. induction l as [|c next IH]; intros i0 a'.
  { left. split; [done|]. intros i j cb nb _ Hi. done. }
  subst a'. simpl scan_free. change (0 =? 0) with true. cbv iota.
  destruct (scan_next_outcome c i0 (S i0) next (Adj None None 0))
    as [[Heq Hall]|(m & nb & Hm & Hk & Heq & Hlast)].
  - rewrite Heq. destruct (IH (S i0)) as [[Heq' Hnone]|(i & j & cb & nb & Hpair & Heq')].
    + left. split; [done|]. intros [|i] [|j] cb nb Hlt Hi Hj; try lia; simpl in *.
      * injection Hi as <-. apply pair_kind_0.
        by eapply (proj1 (Forall_lookup _ _) Hall).
      * apply (Hnone i j); [lia|done|done].
    + right. exists (S i), (S j), cb, nb. split.
      * destruct Hpair as (Hlt & Hi & Hj & Hadj & Hfirst & Hlast).
        repeat split; try done; try lia.
        -- intros [|i'] [|j'] c' n' Hlt1 Hlt2 Hi' Hj'; try lia; simpl in *.
           ++ injection Hi' as <-. apply pair_kind_0.
              by eapply (proj1 (Forall_lookup _ _) Hall).
           ++ apply (Hfirst i' j'); [lia|lia|done|done].
        -- intros [|j'] n' Hlt' Hj'; [lia|]. simpl in Hj'.
           apply (Hlast j'); [lia|done].
      * rewrite Heq'. f_equal; f_equal; lia.
  - rewrite scan_free_stop by (rewrite Heq; done).
    right. exists 0%nat, (S m), c, nb. split.
    + split; [lia|]. split; [done|]. split; [done|]. split; [|split].
      * apply dec_stable. intros Hno. by apply pair_kind_0 in Hno.
      * intros i' j' c' n' Hlt. lia.
      * intros [|j'] n' Hlt' Hj'; [lia|]. simpl in Hj'.
        apply pair_kind_0. apply (Hlast j'); [lia|done].
    + rewrite Heq. f_equal; f_equal; lia.
Qed.

End PairScan.

(** C6 (amended).  [is_fragmented] always returns.  With an empty free list
    it returns false and changes nothing.  With one free chunk it changes
    nothing and returns true exactly when the chunk's address is below the
    address of some allocated chunk.  With more than one free chunk it returns
    true; when no two chunks are mutually adjacent nothing changes; otherwise
    the merge is between the first chunk in traversal order that has an
    adjacent chunk after it in the list and the last such chunk after it: the
    one at the lower address keeps its descriptor, its header is set to the
    sum of the two sizes plus one header, and the descriptor of the other is
    removed. *)
Theorem is_fragmented_outcome (s : state) :
  exists (r : bool) (s' : state),
    is_fragmented s = Some (r, s') /\ fragmented_outcome s r s'.
Proof.
  unfold is_fragmented, List_countNodes.
  destruct (Myalloc.free_list s) as [|b l] eqn:Hfree.
  { exists false, s. split; [done|]. by apply outcome_empty. }
  destruct l as [|b' l].
  { simpl. eexists _, s. split; [reflexivity|].
    apply (outcome_single s b); [done|].
    rewrite existsb_exists. split.
    - intros (a & Hin & Hlt). exists a. split; [by apply list_elem_of_In|].
      by apply Z.ltb_lt.
    - intros (a & Hin & Hlt). exists a. split; [by apply list_elem_of_In|].
      by apply Z.ltb_lt. }
  rewrite <- Hfree.
  assert (1 < length (Myalloc.free_list s))%nat as Hlen by (rewrite Hfree; simpl; lia).
  destruct (Z.eqb_spec (Z.of_nat (length (Myalloc.free_list s))) 0) as [|_]; [lia|].
  destruct (Z.gtb_spec (Z.of_nat (length (Myalloc.free_list s))) 1) as [_|]; [|lia].
  destruct (scan_free_outcome (Myalloc.arena s) 0 (Myalloc.free_list s))
    as [[Heq Hnone]|(i & j & cb & nb & Hpair & Heq)].
  { rewrite Heq. simpl. exists true, s. split; [done|]. by apply outcome_no_pair. }
  rewrite Heq. simpl.
  pose proof Hpair as (Hlt & Hi & Hj & Hadj & _).
  destruct (pair_kind_cases (Myalloc.arena s) cb nb) as [H0|[H1|H2]].
  - by apply pair_kind_0 in H0.
  - rewrite H1. simpl. rewrite Hi, Hj. simpl.
    rewrite (List_deleteNode_lookup _ _ _ Hi). simpl.
    eexists true, _. split; [reflexivity|].
    apply pair_kind_1 in H1.
    by apply (outcome_merge_left s i j cb nb).
  - rewrite H2. simpl. rewrite Hi, Hj. simpl.
    rewrite (List_deleteNode_lookup _ _ _ Hj). simpl.
    eexists true, _. split; [reflexivity|].
    apply pair_kind_2 in H2.
    by apply (outcome_merge_right s i j cb nb).
Qed.

(** C6 as stated fails after [script_three_free]: the free list is
    [20; 44; 8], the chunk at 20 (size 16) is followed by the chunk at 44 and
    preceded by the chunk at 8 (size 4).  The first adjacent pair in
    traversal order is the one at positions (0, 1), the chunks 20 and 44; the
    call merges 20 into 8 instead and leaves 44 as it was. *)
Lemma is_fragmented_merges_last_partner :
  (s ← run_from 100 FIRST_FIT script_three_free;
   '(r, s') ← is_fragmented s;
   Some (sizes (Myalloc.arena s) (Myalloc.free_list s),
         first_adjacent_pair (Myalloc.arena s) 0 (Myalloc.free_list s),
         r,
         sizes (Myalloc.arena s') (Myalloc.free_list s')))
  = Some ([(20, 16); (44, 92); (8, 4)], Some (0%nat, 1%nat), true,
          [(44, 92); (8, 28)]).
Proof. vm_compute. reflexivity. Qed.

(** * The placement search, where it does what C7 says *)

(** X20.  FIRST_FIT returns the first chunk in traversal order that is large
    enough, in every state. *)
Lemma first_fit_first_eligible h _size l p :
  first_fit h _size l = Some p -> first_eligible h _size l p.
Proof.
  induction l as [|block next IH]; simpl; [done|].
  destruct (Z.geb_spec (chunk_size h block) _size) as [Hge|Hlt].
  - intros [= <-]. exists 0%nat. split; [done|]. split; [lia|].
    intros j q Hj. lia.
  - intros Hp. destruct (IH Hp) as (i & Hi & Hsz & Hfirst).
    exists (S i). split; [done|]. split; [done|].
    intros [|j] q Hj Hq; simpl in Hq.
    + by injection Hq as <-.
    + apply (Hfirst j); [lia|done].
Qed.

Lemma best_fit_fit_loop h _size curr ptr :
  best_fit h _size curr ptr = fit_loop id h _size curr ptr.
Proof. revert ptr. induction curr as [|block next IH]; intros ptr; simpl; [done|]. apply IH. Qed.

Lemma worst_fit_fit_loop h _size curr ptr :
  worst_fit h _size curr ptr = fit_loop Z.opp h _size curr ptr.
Proof.
  revert ptr. induction curr as [|block next IH]; intros ptr; simpl; [done|].
  rewrite IH. do 2 f_equal. destruct ptr as [p|]; [|done].
  destruct (Z.gtb_spec (chunk_size h block) (header_char h p));
    destruct (Z.ltb_spec (- chunk_size h block) (- header_char h p)); done || lia.
Qed.

Section Optimal.

Variables (key : Z -> Z) (h : Mem.heap) (_size : Z).

Lemma header_char_nonnegative block :
  0 <= header_char h block -> header_char h block = chunk_size h block.
Proof. unfold header_char, chunk_size. lia. Qed.

(** One turn of the loop keeps the candidate optimal for the visited part,
    provided the candidate's header is not negative. *)
Lemma candidate_ok_step pre block ptr :
  candidate_ok key h _size pre ptr ->
  (forall p, ptr = Some p -> 0 <= header_char h p) ->
  candidate_ok key h _size (pre ++ [block])
    (if chunk_size h block >=? _size then
       match ptr with
       | None => Some block
       | Some p =>
           if key (chunk_size h block) <? key (header_char h p) then Some block else ptr
       end
     else ptr).
Proof.
  intros Hok Hnonneg.
  destruct (Z.geb_spec (chunk_size h block) _size) as [Hge|Hlt].
  - destruct ptr as [p|]; simpl in Hok.
    + rewrite (header_char_nonnegative p) by (by apply Hnonneg).
      destruct Hok as (i & Hi & Hsz & Hopt).
      pose proof (lookup_lt_Some _ _ _ Hi) as Hlen.
      destruct (Z.ltb_spec (key (chunk_size h block)) (key (chunk_size h p))) as [Hbetter|Hworse].
      * exists (length pre). split; [by rewrite list_lookup_middle|]. split; [lia|].
        intros j q Hj Hq. destruct (decide (j < length pre)%nat) as [Hin|Hout].
        -- rewrite lookup_app_l in Hj by done.
           destruct (Hopt j q Hj Hq) as [Hle _]. lia.
        -- rewrite lookup_app_r in Hj by lia.
           apply list_lookup_singleton_Some in Hj as [_ <-]. lia.
      * exists i. split; [by rewrite lookup_app_l|]. split; [done|].
        intros j q Hj Hq. destruct (decide (j < length pre)%nat) as [Hin|Hout].
        -- rewrite lookup_app_l in Hj by done. by apply Hopt.
        -- rewrite lookup_app_r in Hj by lia.
           apply list_lookup_singleton_Some in Hj as [_ <-]. lia.
    + exists (length pre). split; [by rewrite list_lookup_middle|]. split; [lia|].
      intros j q Hj Hq. destruct (decide (j < length pre)%nat) as [Hin|Hout].
      * rewrite lookup_app_l in Hj by done.
        pose proof (proj1 (Forall_lookup _ _) Hok j q Hj) as Hsmall.
        unfold too_small in Hsmall. lia.
      * rewrite lookup_app_r in Hj by lia.
        apply list_lookup_singleton_Some in Hj as [_ <-]. lia.
  - destruct ptr as [p|]; simpl in *.
    + destruct Hok as (i & Hi & Hsz & Hopt).
      pose proof (lookup_lt_Some _ _ _ Hi) as Hlen.
      exists i. split; [by rewrite lookup_app_l|]. split; [done|].
      intros j q Hj Hq. destruct (decide (j < length pre)%nat) as [Hin|Hout].
      * rewrite lookup_app_l in Hj by done. by apply Hopt.
      * rewrite lookup_app_r in Hj by lia.
        apply list_lookup_singleton_Some in Hj as [_ <-]. lia.
    + apply Forall_app. split; [done|]. by constructor.
Qed.

Lemma fit_loop_candidate_ok curr pre ptr :
  headers_nonnegative h (pre ++ curr) ->
  (forall p, ptr = Some p -> p ∈ pre) ->
  candidate_ok key h _size pre ptr ->
  candidate_ok key h _size (pre ++ curr) (fit_loop key h _size curr ptr).
Proof.
  revert pre ptr. induction curr as [|block next IH]; intros pre ptr Hnonneg Hin Hok.
  { by rewrite app_nil_r. }
  simpl. rewrite (cons_middle block pre next), app_assoc in *.
  apply IH; [done| |].
  - intros p Hp. destruct (chunk_size h block >=? _size).
    + destruct ptr as [p0|].
      * destruct (_ <? _).
        -- injection Hp as <-. apply elem_of_app. right. apply list_elem_of_here.
        -- apply elem_of_app. left. by apply Hin.
      * injection Hp as <-. apply elem_of_app. right. apply list_elem_of_here.
    + apply elem_of_app. left. by apply Hin.
  - apply candidate_ok_step; [done|].
    intros p Hp. apply Hin in Hp.
    apply (proj1 (Forall_forall _ _) Hnonneg). apply list_elem_of_In.
    apply elem_of_app. left. apply elem_of_app. by left.
Qed.

End Optimal.

(** X21.  BEST_FIT returns the smallest chunk that is large enough, the earliest
    on ties, as long as no header of the free list holds a negative byte. *)
Lemma best_fit_smallest_eligible h _size l p :
  headers_nonnegative h l ->
  find_chunk BEST_FIT h _size l = Some p -> smallest_eligible h _size l p.
Proof.
  intros Hnonneg. simpl. rewrite best_fit_fit_loop. intros Hp.
  pose proof (fit_loop_candidate_ok id h _size l [] None Hnonneg) as Hok.
  simpl in Hok. rewrite Hp in Hok. by apply Hok.
Qed.

(** X22.  WORST_FIT returns the largest chunk that is large enough, the
    earliest on ties, as long as no header of the free list holds a negative
    byte. *)
Lemma worst_fit_largest_eligible h _size l p :
  headers_nonnegative h l ->
  find_chunk WORST_FIT h _size l = Some p -> largest_eligible h _size l p.
Proof.
  intros Hnonneg. simpl. rewrite worst_fit_fit_loop. intros Hp.
  pose proof (fit_loop_candidate_ok Z.opp h _size l [] None Hnonneg) as Hok.
  simpl in Hok. rewrite Hp in Hok. by apply Hok.
Qed.

(** The search finds a chunk whenever one is large enough. *)
Lemma find_chunk_is_Some alg h _size l q :
  q ∈ l -> _size <= chunk_size h q -> is_Some (find_chunk alg h _size l).
Proof.
  intros Hin Hsz.
  assert (forall key curr ptr, is_Some ptr -> is_Some (fit_loop key h _size curr ptr)) as Hkeep.
  { intros key curr. induction curr as [|b next IH]; intros ptr Hs; simpl; [done|].
    apply IH. destruct (_ >=? _); [|done]. destruct Hs as [p ->]. by destruct (_ <? _). }
  assert (forall key curr ptr, q ∈ curr -> is_Some (fit_loop key h _size curr ptr)) as Hfit.
  { intros key curr. induction curr as [|b next IH]; intros ptr Hq; simpl.
    - by apply elem_of_nil in Hq.
    - apply elem_of_cons in Hq as [<-|Hq]; [|by apply IH].
      apply Hkeep. destruct (Z.geb_spec (chunk_size h q) _size); [|lia].
      destruct ptr as [p|]; [by destruct (_ <? _)|done]. }
  destruct alg; simpl.
  - induction l as [|b next IH]; simpl; [by apply elem_of_nil in Hin|].
    destruct (Z.geb_spec (chunk_size h b) _size) as [|Hlt]; [done|].
    apply elem_of_cons in Hin as [<-|Hin]; [lia|by apply IH].
  - rewrite best_fit_fit_loop. by apply Hfit.
  - rewrite worst_fit_fit_loop. by apply Hfit.
Qed.

(** * Header updates write one byte *)

Lemma set_header_other h block v a :
  a ≠ block - HEADER_SIZE -> set_header h block v a = h a.
Proof.
  intros Hne. unfold set_header, Mem.store_char, Mem.store_byte.
  by destruct (Z.eqb_spec a (block - HEADER_SIZE)).
Qed.

(** The arena after each call, as header updates of the arena before it. *)
Lemma allocate_arena s s' _size ptr :
  allocate _size s = Some (ptr, s') ->
  Myalloc.arena s' = Myalloc.arena s \/
  exists p v,
    ptr = Some p /\
    Myalloc.arena s' =
      set_header (set_header (Myalloc.arena s) p _size) (p + _size + HEADER_SIZE) v.
Proof.
  unfold allocate. destruct (0 <? _size); [simpl|done].
  destruct (Myalloc.free_list s) as [|b0 l0] eqn:Hfree; [intros [= <- <-]; by left|].
  rewrite <- Hfree.
  destruct (find_chunk _ _ _ _) as [p|]; [|intros [= <- <-]; by left]. simpl.
  destruct (_ >? 8).
  - destruct (List_findNode _ _) as [i|]; simpl; [|done].
    intros [= <- <-]. right. by eexists _, _.
  - destruct (List_deleteNode _ _) as [free'|]; simpl; [|done].
    intros [= <- <-]. by left.
Qed.

Lemma deallocate_arena s s' _ptr :
  deallocate _ptr s = Some s' ->
  Myalloc.arena s' = Myalloc.arena s \/
  exists v, Myalloc.arena s' = set_header (Myalloc.arena s) _ptr v.
Proof.
  unfold deallocate.
  destruct (Myalloc.free_list s) as [|b0 l0] eqn:Hfree; [intros [= <-]; by left|].
  rewrite <- Hfree.
  destruct (right_scan _ _) as [i|].
  - destruct (Myalloc.free_list s !! i) as [block|]; simpl; [|done].
    destruct (List_deleteNode _ _) as [free1|]; simpl; [|done].
    intros [= <-]. right. by eexists.
  - simpl. destruct (List_deleteNode _ _) as [allocated1|]; simpl; [|done].
    intros [= <-]. by left.
Qed.

Lemma is_fragmented_arena s r s' :
  is_fragmented s = Some (r, s') ->
  Myalloc.arena s' = Myalloc.arena s \/
  exists block v, Myalloc.arena s' = set_header (Myalloc.arena s) block v.
Proof.
  unfold is_fragmented.
  destruct (_ =? 0); [intros [= <- <-]; by left|].
  destruct (_ >? 1).
  - set (a := scan_free _ _ _ _).
    destruct (Z.eqb_spec (has_adj a) 2) as [H2|_].
    + destruct (Z.eqb_spec (has_adj a) 1) as [|_]; [lia|].
      destruct (adjacent a ≫= _) as [adjacent_block|]; simpl; [|done].
      destruct (current a ≫= _) as [current_block|]; simpl; [|done].
      destruct (List_deleteNode _ _) as [free1|]; simpl; [|done].
      intros [= <- <-]. right. by eexists _, _.
    + simpl. destruct (has_adj a =? 1); [|intros [= <- <-]; by left].
      destruct (adjacent a ≫= _) as [adjacent_block|]; simpl; [|done].
      destruct (current a ≫= _) as [current_block|]; simpl; [|done].
      destruct (List_deleteNode _ _) as [free1|]; simpl; [|done].
      intros [= <- <-]. right. by eexists _, _.
  - destruct (head _); simpl; [|done]. intros [= <- <-]. by left.
Qed.

(** X23.  [allocate] writes at most the first byte of the header of the chunk it
    hands out and the first byte of the header of the remainder. *)
Lemma allocate_writes_two_bytes s s' _size ptr a :
  allocate _size s = Some (Some ptr, s') ->
  a ≠ ptr - HEADER_SIZE -> a ≠ ptr + _size ->
  Myalloc.arena s' a = Myalloc.arena s a.
Proof.
  intros Hcall Hne1 Hne2.
  destruct (allocate_arena _ _ _ _ Hcall) as [->|(p & v & [= <-] & ->)]; [done|].
  rewrite !set_header_other; [done|done|unfold HEADER_SIZE; lia].
Qed.

(** X24.  [deallocate] writes at most the first byte of the header of [_ptr]. *)
Lemma deallocate_writes_one_byte s s' _ptr a :
  deallocate _ptr s = Some s' ->
  a ≠ _ptr - HEADER_SIZE ->
  Myalloc.arena s' a = Myalloc.arena s a.
Proof.
  intros Hcall Hne.
  destruct (deallocate_arena _ _ _ Hcall) as [->|(v & ->)]; [done|].
  by rewrite set_header_other.
Qed.

(** X25.  [is_fragmented] writes at most the first byte of one header. *)
Lemma is_fragmented_writes_one_byte s r s' :
  is_fragmented s = Some (r, s') ->
  exists block, forall a,
    a ≠ block - HEADER_SIZE -> Myalloc.arena s' a = Myalloc.arena s a.
Proof.
  intros Hcall.
  destruct (is_fragmented_arena _ _ _ Hcall) as [->|(block & v & ->)]; [by exists 0|].
  exists block. intros a Hne. by rewrite set_header_other.
Qed.

(** * Every reachable arena holds bytes *)

Lemma allocate_bytes_only s s' _size ptr :
  bytes_only (Myalloc.arena s) ->
  allocate _size s = Some (ptr, s') -> bytes_only (Myalloc.arena s').
Proof.
  intros Hb Hcall.
  destruct (allocate_arena _ _ _ _ Hcall) as [->|(p & v & _ & ->)]; [done|].
  by do 2 apply bytes_only_set_header.
Qed.

Lemma deallocate_bytes_only s s' _ptr :
  bytes_only (Myalloc.arena s) ->
  deallocate _ptr s = Some s' -> bytes_only (Myalloc.arena s').
Proof.
  intros Hb Hcall.
  destruct (deallocate_arena _ _ _ Hcall) as [->|(v & ->)]; [done|].
  by apply bytes_only_set_header.
Qed.

Lemma is_fragmented_bytes_only s r s' :
  bytes_only (Myalloc.arena s) ->
  is_fragmented s = Some (r, s') -> bytes_only (Myalloc.arena s').
Proof.
  intros Hb Hcall.
  destruct (is_fragmented_arena _ _ _ Hcall) as [->|(block & v & ->)]; [done|].
  by apply bytes_only_set_header.
Qed.

Lemma run_bytes_only cs s s' :
  bytes_only (Myalloc.arena s) -> run cs s = Some s' -> bytes_only (Myalloc.arena s').
Proof.
  revert s. induction cs as [|c cs IH]; intros s Hb; simpl; [by intros [= <-]|].
  destruct (step c s) as [s1|] eqn:Hstep; simpl; [|done].
  apply IH. destruct c as [_size returned|_ptr|returned]; simpl in Hstep.
  - destruct (allocate _size s) as [[ptr s2]|] eqn:Ha; simpl in Hstep; [|done].
    destruct (decide _); [|done]. injection Hstep as <-.
    by eapply allocate_bytes_only.
  - by eapply deallocate_bytes_only.
  - destruct (is_fragmented s) as [[b s2]|] eqn:Hf; simpl in Hstep; [|done].
    destruct (decide _); [|done]. injection Hstep as <-.
    by eapply is_fragmented_bytes_only.
Qed.

Lemma run_from_bytes_only _size alg cs s :
  run_from _size alg cs = Some s -> bytes_only (Myalloc.arena s).
Proof.
  unfold run_from, initialize_allocator. destruct (0 <? _size); simpl; [|done].
  apply run_bytes_only. simpl. apply bytes_only_store_le, bytes_only_zeroed.
Qed.

(** * compact_allocation, where it does what C5 says *)

(** With a hole of 38 bytes before an allocated chunk of 82 bytes the single
    pass of the loop brings the chunk to the first payload address 8 (the
    free chunk it leaves at 90 has its header in the last 8 bytes of that
    payload). *)
Example compaction_of_a_longer_chunk :
  (s ← run_from 100 FIRST_FIT
         [Allocate 20 (Some 8); Allocate 10 (Some 36); Deallocate 8;
          Allocate 82 (Some 54); Deallocate 36; Is_fragmented true];
   '(r, s') ← compact_allocation 2 [None] [None] s;
   '(fragmented, _) ← is_fragmented s';
   Some (observe s, r, observe s', fragmented))
  = Some (Observe [(8, 38)] [(54, 82)] 38 82,
          Report [Some 54] [Some 8] 1,
          Observe [(90, 38)] [(8, 82)] 38 82, false).
Proof. vm_compute. reflexivity. Qed.

(** * Further properties of the code *)

(** ** initialize_allocator *)



(** ** list.c *)

Lemma List_findNode_is_Some head block :
  is_Some (List_findNode head block) <-> block ∈ head.
Proof.
  split.
  - intros [i Hi]. apply List_findNode_Some in Hi as [Hlook _].
    by eapply list_elem_of_lookup_2.
  - intros Hin. destruct (List_findNode_elem_of _ _ Hin) as [i Hi]. by exists i.
Qed.

Lemma List_insertHead_cases head block :
  (block ∈ head /\ List_insertHead head block = head) \/
  ((block ∉ head) /\ List_insertHead head block = block :: head).
Proof.
  unfold List_insertHead. destruct head as [|b l].
  { right. split; [apply not_elem_of_nil|done]. }
  destruct (List_findNode (b :: l) block) as [i|] eqn:Hf.
  - left. split; [|done]. apply List_findNode_is_Some. by exists i.
  - right. split; [|done]. by apply List_findNode_None.
Qed.

Lemma List_insertTail_cases head block :
  (block ∈ head /\ List_insertTail head block = head) \/
  ((block ∉ head) /\ List_insertTail head block = head ++ [block]).
Proof.
  unfold List_insertTail. destruct head as [|b l].
  { right. split; [apply not_elem_of_nil|done]. }
  destruct (List_findNode (b :: l) block) as [i|] eqn:Hf.
  - left. split; [|done]. apply List_findNode_is_Some. by exists i.
  - right. split; [|done]. by apply List_findNode_None.
Qed.

(** X2.  [List_insertHead] keeps a list free of duplicates: a block already in
    the list is not inserted again, a new one becomes the head, and in both
    cases the list holds the block and what it held before. *)
Theorem List_insertHead_NoDup (head : list Z) (block : Z) :
  NoDup head ->
  NoDup (List_insertHead head block) /\
  (forall x, x ∈ List_insertHead head block <-> x = block \/ x ∈ head) /\
  (block ∉ head -> List_findNode (List_insertHead head block) block = Some 0%nat).
Proof.
  intros Hnd. destruct (List_insertHead_cases head block) as [[Hin ->]|[Hnot ->]].
  - split; [done|]. split; [|done]. intros x. split; [by right|].
    by intros [->|?].
  - split; [by constructor|]. split; [intros x; apply elem_of_cons|].
    intros _. simpl. by rewrite Z.eqb_refl.
Qed.

Lemma List_insertHead_NoDup_witness :
  NoDup [32; 8] /\
  NoDup (List_insertHead [32; 8] 56) /\
  (forall x, x ∈ List_insertHead [32; 8] 56 <-> x = 56 \/ x ∈ [32; 8]) /\
  (56 ∉ [32; 8] -> List_findNode (List_insertHead [32; 8] 56) 56 = Some 0%nat).
Proof.
  assert (NoDup [32; 8]) as Hnd by (apply (bool_decide_unpack _); reflexivity).
  split; [exact Hnd|]. exact (List_insertHead_NoDup [32; 8] 56 Hnd).
Defined.

(** X3.  [List_insertTail] does the same at the other end: a new block becomes
    the last node and the nodes before it keep their places. *)
Theorem List_insertTail_NoDup (head : list Z) (block : Z) :
  NoDup head ->
  NoDup (List_insertTail head block) /\
  (forall x, x ∈ List_insertTail head block <-> x = block \/ x ∈ head) /\
  (block ∉ head ->
   List_insertTail head block = head ++ [block] /\
   List_findNode (List_insertTail head block) block = Some (length head)).
Proof.
  intros Hnd. destruct (List_insertTail_cases head block) as [[Hin ->]|[Hnot ->]].
  - split; [done|]. split; [|done]. intros x. split; [by right|].
    by intros [->|?].
  - split.
    { apply list.NoDup_app. split; [done|]. split; [|apply NoDup_singleton].
      intros x Hx Hx'. apply list_elem_of_singleton in Hx' as ->. done. }
    split.
    { intros x. rewrite elem_of_app, list_elem_of_singleton. tauto. }
    intros _. split; [done|].
    clear Hnd. induction head as [|b l IH]; simpl.
    + by rewrite Z.eqb_refl.
    + apply not_elem_of_cons in Hnot as [Hne Hnot].
      destruct (Z.eqb_spec b block) as [|_]; [done|].
      by rewrite (IH Hnot).
Qed.

Lemma List_insertTail_NoDup_witness :
  NoDup [32; 8] /\
  NoDup (List_insertTail [32; 8] 56) /\
  (forall x, x ∈ List_insertTail [32; 8] 56 <-> x = 56 \/ x ∈ [32; 8]) /\
  (56 ∉ [32; 8] ->
   List_insertTail [32; 8] 56 = [32; 8] ++ [56] /\
   List_findNode (List_insertTail [32; 8] 56) 56 = Some (length [32; 8])).
Proof.
  assert (NoDup [32; 8]) as Hnd by (apply (bool_decide_unpack _); reflexivity).
  split; [exact Hnd|]. exact (List_insertTail_NoDup [32; 8] 56 Hnd).
Defined.

(** X4.  Deleting the node that [List_findNode] returns for a block of a list
    without duplicates removes that block and nothing else. *)
Theorem List_deleteNode_findNode (head : list Z) (block : Z) :
  NoDup head -> block ∈ head ->
  exists head',
    List_deleteNode head (List_findNode head block) = Some head' /\
    (block ∉ head') /\
    (forall x, x ≠ block -> (x ∈ head' <-> x ∈ head)) /\
    length head = S (length head').
Proof.
  intros Hnd Hin. destruct (List_findNode_elem_of _ _ Hin) as [i Hi].
  pose proof (List_findNode_Some _ _ _ Hi) as [Hlook _].
  rewrite Hi, (List_deleteNode_lookup _ _ _ Hlook).
  pose proof (delete_Permutation _ _ _ Hlook) as Hperm.
  exists (delete i head). split; [done|].
  rewrite Hperm in Hnd. apply list.NoDup_cons in Hnd as [Hnot _].
  split; [done|]. split.
  - intros x Hne. rewrite Hperm at 2. rewrite elem_of_cons. tauto.
  - by rewrite Hperm at 1.
Qed.

Lemma List_deleteNode_findNode_witness :
  NoDup [56; 32; 8] /\ 32 ∈ [56; 32; 8] /\
  exists head',
    List_deleteNode [56; 32; 8] (List_findNode [56; 32; 8] 32) = Some head' /\
    (32 ∉ head') /\
    (forall x, x ≠ 32 -> (x ∈ head' <-> x ∈ [56; 32; 8])) /\
    length [56; 32; 8] = S (length head').
Proof.
  assert (NoDup [56; 32; 8]) as Hnd by (apply (bool_decide_unpack _); reflexivity).
  assert (32 ∈ [56; 32; 8]) as Hin by (apply (bool_decide_unpack _); reflexivity).
  split; [exact Hnd|]. split; [exact Hin|].
  exact (List_deleteNode_findNode [56; 32; 8] 32 Hnd Hin).
Defined.

Lemma List_deleteNode_NULL head :
  List_deleteNode head None = if decide (length head = 1%nat) then Some [] else None.
Proof.
  unfold List_deleteNode, List_countNodes.
  destruct (Z.eqb_spec (Z.of_nat (length head)) 1); destruct (decide _); done || lia.
Qed.

(** X5.  Asked to delete a block that is not in the list, the pair
    [List_findNode]/[List_deleteNode] empties a list of one node, although
    that node holds another block, and does not return for any other list. *)
Theorem List_deleteNode_absent (head : list Z) (block : Z) :
  block ∉ head ->
  List_deleteNode head (List_findNode head block)
  = if decide (length head = 1%nat) then Some [] else None.
Proof.
  intros Hnot. apply List_findNode_None in Hnot. rewrite Hnot.
  apply List_deleteNode_NULL.
Qed.

Lemma List_deleteNode_absent_witness :
  (7 ∉ [8]) /\ List_deleteNode [8] (List_findNode [8] 7) = Some [].
Proof.
  assert (7 ∉ [8]) as Hnot by (apply (bool_decide_unpack _); reflexivity).
  split; [exact Hnot|]. exact (List_deleteNode_absent [8] 7 Hnot).
Defined.

(** *** List_sort *)

Lemma minNodePrev_loop_least L pre curr currPrev min minPrev :
  L = pre ++ curr ->
  node_after currPrev = length pre ->
  L !! node_after minPrev = Some min ->
  (forall x, x ∈ pre -> min <= x) ->
  exists m,
    L !! node_after (minNodePrev_loop curr (length pre) currPrev min minPrev) = Some m /\
    forall x, x ∈ L -> m <= x.
Proof.
  revert pre currPrev min minPrev.
  induction curr as [|block next IH]; intros pre currPrev min minPrev HL Hprev Hmin Hle.
  { simpl. exists min. split; [done|]. intros x. rewrite HL, app_nil_r. apply Hle. }
  simpl. rewrite (cons_middle block pre next), app_assoc in HL.
  assert (length (pre ++ [block]) = S (length pre)) as Hlen
    by (rewrite length_app; simpl; lia).
  assert (L !! length pre = Some block) as Hblock.
  { rewrite HL, <- app_assoc. simpl. by apply list_lookup_middle. }
  rewrite <- Hlen.
  destruct (Z.ltb_spec block min) as [Hlt|Hge].
  - apply IH; [done|simpl; lia|by rewrite Hprev|].
    intros x Hx. apply elem_of_app in Hx as [Hx|Hx].
    + specialize (Hle x Hx). lia.
    + apply list_elem_of_singleton in Hx as ->. lia.
  - apply IH; [done|simpl; lia|done|].
    intros x Hx. apply elem_of_app in Hx as [Hx|Hx]; [by apply Hle|].
    apply list_elem_of_singleton in Hx as ->. lia.
Qed.

(** The node after the one [List_minNodePrev] returns holds a least block. *)
Lemma List_minNodePrev_least b next :
  exists m,
    (b :: next) !! node_after (List_minNodePrev (b :: next)) = Some m /\
    forall x, x ∈ b :: next -> m <= x.
Proof.
  unfold List_minNodePrev.
  apply (minNodePrev_loop_least (b :: next) [] (b :: next) None b None); try done.
  intros x Hx. by apply elem_of_nil in Hx.
Qed.

Lemma List_swapNode_Permutation b next k m :
  next !! k = Some m ->
  List_swapNode (b :: next) k = Some (m :: <[k := b]> next) /\
  m :: <[k := b]> next ≡ₚ b :: next.
Proof.
  intros Hk. unfold List_swapNode. simpl. rewrite Hk. simpl. split; [done|].
  revert k Hk. induction next as [|x next IH]; intros [|k] Hk; simpl in *; try done.
  - injection Hk as ->. apply perm_swap.
  - rewrite (perm_swap x m), (IH k Hk). apply perm_swap.
Qed.

Lemma List_sort_depth_sorts n l :
  (length l <= n)%nat ->
  exists l',
    List_sort_depth n l = Some l' /\ l' ≡ₚ l /\ Sorted.StronglySorted Z.le l'.
Proof.
  revert l. induction n as [|n IH]; intros [|b next] Hlen; simpl in Hlen.
  - exists []. repeat split; [done|constructor].
  - lia.
  - exists []. repeat split; [done|constructor].
  - destruct (List_minNodePrev_least b next) as (m & Hm & Hleast).
    cbn [List_sort_depth].
    destruct (List_minNodePrev (b :: next)) as [k|]; simpl in Hm.
    + destruct (List_swapNode_Permutation b next k m Hm) as [-> Hperm]. simpl.
      destruct (IH (<[k := b]> next)) as (rest' & -> & Hperm' & Hsorted).
      { rewrite length_insert. lia. }
      simpl. exists (m :: rest'). split; [done|]. split.
      * by rewrite Hperm', Hperm.
      * constructor; [done|]. apply list.Forall_forall. intros x Hx.
        apply Hleast. rewrite <- Hperm, <- Hperm'. by apply list_elem_of_further.
    + injection Hm as <-.
      destruct (IH next) as (next1 & -> & Hperm1 & _); [lia|]. simpl.
      destruct (IH next1) as (next2 & -> & Hperm2 & Hsorted).
      { rewrite Hperm1. lia. }
      simpl. exists (b :: next2). split; [done|]. split.
      * by rewrite Hperm2, Hperm1.
      * constructor; [done|]. apply list.Forall_forall. intros x Hx.
        apply Hleast. rewrite <- Hperm1, <- Hperm2. by apply list_elem_of_further.
Qed.

(** X6.  [List_sort] returns for every list, with the same blocks in ascending
    order. *)
Theorem List_sort_sorts (head : list Z) :
  exists head',
    List_sort head = Some head' /\
    head' ≡ₚ head /\
    Sorted.StronglySorted Z.le head'.
Proof. by apply List_sort_depth_sorts. Qed.

(** ** Statistics *)

Lemma smallest_loop_least h curr min :
  let r := smallest_loop h curr min (header_char h min) in
  (r = header_char h min \/ exists b, b ∈ curr /\ r = header_char h b) /\
  r <= header_char h min /\
  forall b, b ∈ curr -> r <= header_char h b.
Proof.
  revert min. induction curr as [|block next IH]; intros min; simpl.
  { split; [by left|]. split; [lia|]. intros b Hb. by apply elem_of_nil in Hb. }
  destruct (Z.ltb_spec (header_char h block) (header_char h min)) as [Hlt|Hge].
  - destruct (IH block) as ([Hr|(b & Hb & Hr)] & Hle & Hall).
    + split; [right; exists block; split; [apply list_elem_of_here|done]|].
      split; [lia|]. intros b Hb. apply elem_of_cons in Hb as [->|Hb]; [lia|by apply Hall].
    + split; [right; exists b; split; [by apply list_elem_of_further|done]|].
      split; [lia|]. intros b' Hb'. apply elem_of_cons in Hb' as [->|Hb']; [lia|by apply Hall].
  - destruct (IH min) as ([Hr|(b & Hb & Hr)] & Hle & Hall).
    + split; [by left|]. split; [done|].
      intros b Hb. apply elem_of_cons in Hb as [->|Hb]; [lia|by apply Hall].
    + split; [right; exists b; split; [by apply list_elem_of_further|done]|].
      split; [done|]. intros b' Hb'. apply elem_of_cons in Hb' as [->|Hb']; [lia|by apply Hall].
Qed.

Lemma largest_loop_greatest h curr max :
  let r := largest_loop h curr max (header_char h max) in
  (r = header_char h max \/ exists b, b ∈ curr /\ r = header_char h b) /\
  header_char h max <= r /\
  forall b, b ∈ curr -> header_char h b <= r.
Proof.
  revert max. induction curr as [|block next IH]; intros max; simpl.
  { split; [by left|]. split; [lia|]. intros b Hb. by apply elem_of_nil in Hb. }
  destruct (Z.gtb_spec (header_char h block) (header_char h max)) as [Hgt|Hle'].
  - destruct (IH block) as ([Hr|(b & Hb & Hr)] & Hle & Hall).
    + split; [right; exists block; split; [apply list_elem_of_here|done]|].
      split; [lia|]. intros b Hb. apply elem_of_cons in Hb as [->|Hb]; [lia|by apply Hall].
    + split; [right; exists b; split; [by apply list_elem_of_further|done]|].
      split; [lia|]. intros b' Hb'. apply elem_of_cons in Hb' as [->|Hb']; [lia|by apply Hall].
  - destruct (IH max) as ([Hr|(b & Hb & Hr)] & Hle & Hall).
    + split; [by left|]. split; [done|].
      intros b Hb. apply elem_of_cons in Hb as [->|Hb]; [lia|by apply Hall].
    + split; [right; exists b; split; [by apply list_elem_of_further|done]|].
      split; [done|]. intros b' Hb'. apply elem_of_cons in Hb' as [->|Hb']; [lia|by apply Hall].
Qed.

(** X7.  With a free chunk in the list, the smallest and the largest free chunk
    size that [print_statistics] prints are header bytes of free chunks, read
    as signed [char]s, and every free chunk's header byte lies between them.
    The sizes are not passed through [abs]: a chunk whose size is read as 128
    everywhere else is printed as -128. *)
Theorem print_statistics_extremes (s : state) :
  Myalloc.free_list s ≠ [] ->
  let st := print_statistics s in
  (exists b, b ∈ Myalloc.free_list s /\
             smallest_free_chunk_size st = header_char (Myalloc.arena s) b) /\
  (exists b, b ∈ Myalloc.free_list s /\
             largest_free_chunk_size st = header_char (Myalloc.arena s) b) /\
  (forall b, b ∈ Myalloc.free_list s ->
     smallest_free_chunk_size st <= header_char (Myalloc.arena s) b
       <= largest_free_chunk_size st) /\
  free_chunks st = Z.of_nat (length (Myalloc.free_list s)).
Proof.
  intros Hne. simpl. destruct (Myalloc.free_list s) as [|b0 next]; [done|]. simpl.
  destruct (smallest_loop_least (Myalloc.arena s) next b0) as (Hs & Hs0 & Hsall).
  destruct (largest_loop_greatest (Myalloc.arena s) next b0) as (Hl & Hl0 & Hlall).
  split; [|split; [|split; [|done]]].
  - destruct Hs as [Hs|(b & Hb & Hs)].
    + exists b0. split; [apply list_elem_of_here|done].
    + exists b. split; [by apply list_elem_of_further|done].
  - destruct Hl as [Hl|(b & Hb & Hl)].
    + exists b0. split; [apply list_elem_of_here|done].
    + exists b. split; [by apply list_elem_of_further|done].
  - intros b Hb. apply elem_of_cons in Hb as [->|Hb]; [lia|].
    specialize (Hsall b Hb). specialize (Hlall b Hb). lia.
Qed.

Lemma print_statistics_extremes_witness :
  Myalloc.free_list (fresh_arena 128 BEST_FIT) ≠ [] /\
  smallest_free_chunk_size (print_statistics (fresh_arena 128 BEST_FIT)) = -128 /\
  largest_free_chunk_size (print_statistics (fresh_arena 128 BEST_FIT)) = -128 /\
  chunk_size (Myalloc.arena (fresh_arena 128 BEST_FIT)) 8 = 128.
Proof.
  assert (Myalloc.free_list (fresh_arena 128 BEST_FIT) ≠ []) as Hne by discriminate.
  split; [exact Hne|].
  destruct (print_statistics_extremes (fresh_arena 128 BEST_FIT) Hne)
    as (_ & _ & Hbetween & _).
  assert (8 ∈ Myalloc.free_list (fresh_arena 128 BEST_FIT)) as Hin
    by apply list_elem_of_here.
  specialize (Hbetween 8 Hin).
  change (header_char (Myalloc.arena (fresh_arena 128 BEST_FIT)) 8) with (-128) in Hbetween.
  split; [reflexivity|]. split; reflexivity.
Defined.

Lemma allocate_in_sync s s' _size ptr :
  in_sync s -> allocate _size s = Some (ptr, s') -> in_sync s'.
Proof.
  intros Hsync. unfold allocate. destruct (0 <? _size); [simpl|done].
  destruct (Myalloc.free_list s) as [|b0 l0] eqn:Hfree; [by intros [= <- <-]|].
  rewrite <- Hfree.
  destruct (find_chunk _ _ _ _) as [p|]; [|by intros [= <- <-]]. simpl.
  destruct (_ >? 8).
  - destruct (List_findNode _ _) as [i|]; simpl; [|done]. by intros [= <- <-].
  - destruct (List_deleteNode _ _) as [free'|]; simpl; [|done]. by intros [= <- <-].
Qed.

Lemma deallocate_in_sync s s' _ptr :
  in_sync s -> deallocate _ptr s = Some s' -> in_sync s'.
Proof.
  intros Hsync. unfold deallocate.
  destruct (Myalloc.free_list s) as [|b0 l0] eqn:Hfree; [by intros [= <-]|].
  rewrite <- Hfree.
  destruct (right_scan _ _) as [i|].
  - destruct (Myalloc.free_list s !! i) as [block|]; simpl; [|done].
    destruct (List_deleteNode _ _) as [free1|]; simpl; [|done]. by intros [= <-].
  - simpl. destruct (List_deleteNode _ _) as [allocated1|]; simpl; [|done].
    by intros [= <-].
Qed.

(** X8.  The cached counters that [print_statistics] and [compact_allocation] read
    stay equal to [available_memory()] and [used_memory()] through every
    sequence of [allocate] and [deallocate] calls. *)
Theorem run_in_sync (cs : list call) (s s' : state) :
  in_sync s -> Forall allocator_call cs -> run cs s = Some s' -> in_sync s'.
Proof.
  intros Hsync Hcalls. revert s Hsync.
  induction Hcalls as [|c cs Hc _ IH]; intros s Hsync; simpl; [by intros [= <-]|].
  destruct (step c s) as [s1|] eqn:Hstep; simpl; [|done].
  apply IH. destruct c as [_size returned|_ptr|returned]; simpl in Hstep.
  - destruct (allocate _size s) as [[ptr s2]|] eqn:Ha; simpl in Hstep; [|done].
    destruct (decide _); [|done]. injection Hstep as <-.
    by eapply allocate_in_sync.
  - by eapply deallocate_in_sync.
  - done.
Qed.

Lemma run_in_sync_witness :
  in_sync (fresh_arena 128 FIRST_FIT) /\
  Forall allocator_call script_three_chunks /\
  exists s', run script_three_chunks (fresh_arena 128 FIRST_FIT) = Some s' /\ in_sync s'.
Proof.
  assert (in_sync (fresh_arena 128 FIRST_FIT)) as Hsync by (split; reflexivity).
  assert (Forall allocator_call script_three_chunks) as Hcalls
    by (repeat constructor).
  split; [exact Hsync|]. split; [exact Hcalls|].
  eexists. split; [vm_compute; reflexivity|].
  apply (run_in_sync script_three_chunks (fresh_arena 128 FIRST_FIT) _ Hsync Hcalls).
  vm_compute. reflexivity.
Defined.

(** ** destroy_allocator *)

Lemma destroy_loop_empties l : destroy_loop l l = Some [].
Proof.
  induction l as [|b next IH]; simpl; [done|].
  rewrite (List_deleteNode_lookup (b :: next) 0 b eq_refl). simpl. apply IH.
Qed.

(** X9.  [destroy_allocator] returns in every state and leaves both lists empty. *)
Theorem destroy_allocator_empties (s : state) :
  exists s',
    destroy_allocator s = Some s' /\
    Myalloc.free_list s' = [] /\ Myalloc.allocated_list s' = [].
Proof.
  unfold destroy_allocator. rewrite !destroy_loop_empties. simpl.
  eexists. split; [reflexivity|]. done.
Qed.

(** ** allocate *)

(** X10.  [allocate] succeeds whenever some free chunk is read as large enough,
    under each of the three strategies, and the address it returns is that of
    a free chunk that is large enough. *)
Theorem allocate_succeeds (s : state) (_size q : Z) :
  0 < _size ->
  q ∈ Myalloc.free_list s ->
  _size <= chunk_size (Myalloc.arena s) q ->
  exists ptr s',
    allocate _size s = Some (Some ptr, s') /\
    ptr ∈ Myalloc.free_list s /\
    _size <= chunk_size (Myalloc.arena s) ptr /\
    ptr ∈ Myalloc.allocated_list s'.
Proof.
  intros Hpos Hq Hsz. unfold allocate.
  destruct (Z.ltb_spec 0 _size) as [_|]; [simpl|lia].
  destruct (Myalloc.free_list s) as [|b0 l0] eqn:Hfree; [by apply elem_of_nil in Hq|].
  rewrite <- Hfree in *.
  destruct (find_chunk_is_Some (Myalloc.aalgorithm s) _ _ _ _ Hq Hsz) as [p Hfind].
  rewrite Hfind. destruct (find_chunk_eligible _ _ _ _ _ Hfind) as [Hin Hp].
  destruct (List_findNode_elem_of _ _ Hin) as [i Hi].
  pose proof (List_findNode_Some _ _ _ Hi) as [Hlook _].
  simpl. rewrite Hi. simpl.
  destruct (_ >? 8); simpl.
  - eexists p, _. split; [reflexivity|]. simpl.
    repeat split; try done. apply List_insertHead_elem_of.
  - rewrite (List_deleteNode_lookup _ _ _ Hlook). simpl.
    eexists p, _. split; [reflexivity|]. simpl.
    repeat split; try done. apply List_insertHead_elem_of.
Qed.

Lemma allocate_succeeds_witness :
  0 < 100 /\
  8 ∈ Myalloc.free_list (fresh_arena 128 WORST_FIT) /\
  100 <= chunk_size (Myalloc.arena (fresh_arena 128 WORST_FIT)) 8 /\
  exists ptr s',
    allocate 100 (fresh_arena 128 WORST_FIT) = Some (Some ptr, s') /\
    ptr ∈ Myalloc.free_list (fresh_arena 128 WORST_FIT) /\
    100 <= chunk_size (Myalloc.arena (fresh_arena 128 WORST_FIT)) ptr /\
    ptr ∈ Myalloc.allocated_list s'.
Proof.
  assert (0 < 100) as Hpos by lia.
  assert (8 ∈ Myalloc.free_list (fresh_arena 128 WORST_FIT)) as Hin
    by apply list_elem_of_here.
  assert (100 <= chunk_size (Myalloc.arena (fresh_arena 128 WORST_FIT)) 8) as Hsz
    by discriminate.
  split; [exact Hpos|]. split; [exact Hin|]. split; [exact Hsz|].
  exact (allocate_succeeds (fresh_arena 128 WORST_FIT) 100 8 Hpos Hin Hsz).
Defined.

(** *** Accounting *)

Lemma sum_sizes_total_size h l acc : sum_sizes h l acc = acc + total_size h l.
Proof.
  revert acc. induction l as [|b l IH]; intros acc; simpl; [lia|].
  rewrite IH. lia.
Qed.

Lemma total_size_Permutation h l k : l ≡ₚ k -> total_size h l = total_size h k.
Proof. induction 1; simpl; lia. Qed.

Lemma total_size_ext h h' l :
  (forall b, b ∈ l -> chunk_size h' b = chunk_size h b) ->
  total_size h' l = total_size h l.
Proof.
  induction l as [|b l IH]; intros Hext; simpl; [done|].
  rewrite Hext by apply list_elem_of_here.
  rewrite IH; [done|]. intros b' Hb'. apply Hext. by apply list_elem_of_further.
Qed.

Lemma insert_Permutation_delete (l : list Z) i x y :
  l !! i = Some x -> <[i := y]> l ≡ₚ y :: delete i l.
Proof.
  revert i. induction l as [|a l IH]; intros [|i] Hi; simpl in *; try done.
  rewrite (IH i Hi). apply perm_swap.
Qed.

(** X11.  In a state whose free list has no duplicates, where the address handed
    out is not yet in the allocated list and, when the chunk is split, the
    address of the remainder is in neither list: a split takes [_size + 8]
    bytes from [available_memory()] and adds [_size] to [used_memory()];
    without a split the whole chunk size moves from one to the other. *)
Theorem allocate_accounting (s s' : state) (_size ptr : Z) :
  bytes_only (Myalloc.arena s) ->
  NoDup (Myalloc.free_list s) ->
  ptr ∉ Myalloc.allocated_list s ->
  (chunk_size (Myalloc.arena s) ptr - _size > 8 ->
   (ptr + _size + HEADER_SIZE) ∉ Myalloc.free_list s ++ Myalloc.allocated_list s) ->
  allocate _size s = Some (Some ptr, s') ->
  let c := chunk_size (Myalloc.arena s) ptr in
  available_memory s' = available_memory s - taken c _size - overhead c _size /\
  used_memory s' = used_memory s + taken c _size.
Proof.
  intros Hbytes Hnd Hfresh Hrem Halloc c. subst c.
  unfold available_memory, used_memory, taken, overhead.
  rewrite !sum_sizes_total_size.
  unfold allocate in Halloc.
  destruct (Z.ltb_spec 0 _size) as [Hpos|]; [simpl in Halloc|done].
  destruct (Myalloc.free_list s) as [|b0 l0] eqn:Hfree; [done|].
  rewrite <- Hfree in *.
  destruct (find_chunk _ _ _ _) as [p|] eqn:Hfind; [|done].
  apply find_chunk_eligible in Hfind as [Hin Hsz].
  destruct (List_findNode_elem_of _ _ Hin) as [i Hi].
  pose proof (List_findNode_Some _ _ _ Hi) as [Hlook _].
  pose proof (chunk_size_bound _ p Hbytes) as Hbound.
  pose proof (delete_Permutation _ _ _ Hlook) as Hperm.
  assert (p ∉ delete i (Myalloc.free_list s)) as Hp_gone.
  { rewrite Hperm in Hnd. by apply list.NoDup_cons in Hnd as [? _]. }
  simpl in Halloc. rewrite Hi in Halloc.
  destruct (Z.gtb_spec (chunk_size (Myalloc.arena s) p - _size) 8) as [Hgt|Hle];
    simpl in Halloc.
  - injection Halloc as <- <-. simpl.
    destruct (decide _) as [_|]; [|lia].
    specialize (Hrem ltac:(lia)). apply not_elem_of_app in Hrem as [Hrem_free Hrem_alloc].
    destruct (List_insertHead_cases (Myalloc.allocated_list s) p) as [[? _]|[_ ->]]; [done|].
    set (h2 := set_header _ _ _).
    assert (forall b, b ≠ p -> b ≠ p + _size + HEADER_SIZE ->
                      chunk_size h2 b = chunk_size (Myalloc.arena s) b) as Hother.
    { intros b Hb1 Hb2. unfold h2. by rewrite !chunk_size_set_header_ne. }
    assert (chunk_size h2 (p + _size + HEADER_SIZE)
            = chunk_size (Myalloc.arena s) p - _size - HEADER_SIZE) as Hrest.
    { unfold h2. rewrite chunk_size_set_header_eq. apply readback_small.
      unfold HEADER_SIZE. lia. }
    assert (chunk_size h2 p = _size) as Hnew.
    { unfold h2. rewrite chunk_size_set_header_ne by (unfold HEADER_SIZE; lia).
      rewrite chunk_size_set_header_eq. apply readback_small. unfold HEADER_SIZE in *. lia. }
    split.
    + rewrite (total_size_Permutation _ _ _ (insert_Permutation_delete _ _ _ _ Hlook)).
      rewrite (total_size_Permutation _ _ _ Hperm). simpl. rewrite Hrest.
      rewrite (total_size_ext (Myalloc.arena s) h2 (delete i _)); [unfold HEADER_SIZE; lia|].
      intros b Hb. apply Hother; intros ->; [done|].
      by apply list_elem_of_delete_inv in Hb.
    + simpl. rewrite Hnew.
      rewrite (total_size_ext (Myalloc.arena s) h2 (Myalloc.allocated_list s)); [lia|].
      intros b Hb. apply Hother; by intros ->.
  - rewrite (List_deleteNode_lookup _ _ _ Hlook) in Halloc. simpl in Halloc.
    injection Halloc as <- <-. simpl.
    destruct (decide _) as [|_]; [lia|].
    destruct (List_insertHead_cases (Myalloc.allocated_list s) p) as [[? _]|[_ ->]]; [done|].
    rewrite (total_size_Permutation _ _ _ Hperm). simpl. lia.
Qed.

Lemma allocate_accounting_witness :
  bytes_only (Myalloc.arena (fresh_arena 128 FIRST_FIT)) /\
  NoDup (Myalloc.free_list (fresh_arena 128 FIRST_FIT)) /\
  (8 ∉ Myalloc.allocated_list (fresh_arena 128 FIRST_FIT)) /\
  allocate 16 (fresh_arena 128 FIRST_FIT) = Some (Some 8, after_allocate_16) /\
  available_memory after_allocate_16 = 128 - 16 - 8 /\
  used_memory after_allocate_16 = 0 + 16.
Proof.
  assert (bytes_only (Myalloc.arena (fresh_arena 128 FIRST_FIT))) as Hb
    by apply bytes_only_fresh_arena.
  assert (NoDup (Myalloc.free_list (fresh_arena 128 FIRST_FIT))) as Hnd
    by apply NoDup_singleton.
  assert (8 ∉ Myalloc.allocated_list (fresh_arena 128 FIRST_FIT)) as Hfresh
    by apply not_elem_of_nil.
  assert (chunk_size (Myalloc.arena (fresh_arena 128 FIRST_FIT)) 8 - 16 > 8 ->
          (8 + 16 + HEADER_SIZE) ∉ Myalloc.free_list (fresh_arena 128 FIRST_FIT)
                                    ++ Myalloc.allocated_list (fresh_arena 128 FIRST_FIT))
    as Hrem by (intros _; apply (bool_decide_unpack _); reflexivity).
  assert (allocate 16 (fresh_arena 128 FIRST_FIT) = Some (Some 8, after_allocate_16))
    as Ha by reflexivity.
  split; [exact Hb|]. split; [exact Hnd|]. split; [exact Hfresh|]. split; [exact Ha|].
  exact (allocate_accounting _ _ _ _ Hb Hnd Hfresh Hrem Ha).
Defined.

(** ** deallocate *)

Lemma List_deleteNode_sublist head node head' :
  List_deleteNode head node = Some head' -> head' `sublist_of` head.
Proof.
  unfold List_deleteNode. destruct (_ =? 1).
  - intros [= <-]. apply sublist_nil_l.
  - destruct node as [[|i]|]; intros [= <-].
    + destruct head; [done|]. simpl. by apply sublist_cons.
    + apply sublist_delete.
Qed.

(** X12.  When no free chunk starts right after the chunk at [_ptr] and the free
    list is not empty, [deallocate] takes [_ptr] out of an allocated list
    without duplicates, keeps every other allocated address, puts [_ptr] in
    the free list and writes nothing to the arena; [available_memory()] grows
    and [used_memory()] shrinks by the size of the chunk. *)
Theorem deallocate_moves_chunk (s : state) (_ptr : Z) :
  Myalloc.free_list s ≠ [] ->
  right_neighbour (Myalloc.arena s) _ptr ∉ Myalloc.free_list s ->
  NoDup (Myalloc.allocated_list s) ->
  _ptr ∈ Myalloc.allocated_list s ->
  _ptr ∉ Myalloc.free_list s ->
  exists s',
    deallocate _ptr s = Some s' /\
    (_ptr ∉ Myalloc.allocated_list s') /\
    (forall x, x ≠ _ptr ->
       (x ∈ Myalloc.allocated_list s' <-> x ∈ Myalloc.allocated_list s)) /\
    Myalloc.free_list s' = _ptr :: Myalloc.free_list s /\
    Myalloc.arena s' = Myalloc.arena s /\
    available_memory s' = available_memory s + chunk_size (Myalloc.arena s) _ptr /\
    used_memory s' = used_memory s - chunk_size (Myalloc.arena s) _ptr.
Proof.
  intros Hne Hright Hnd Hin Hnew. unfold right_neighbour in Hright.
  apply right_scan_None in Hright.
  destruct (List_findNode_elem_of _ _ Hin) as [i Hi].
  pose proof (List_findNode_Some _ _ _ Hi) as [Hlook _].
  pose proof (delete_Permutation _ _ _ Hlook) as Hperm.
  unfold deallocate. rewrite Hright.
  destruct (Myalloc.free_list s) as [|b0 l0] eqn:Hfree; [done|]. rewrite <- Hfree in *.
  simpl. rewrite Hi, (List_deleteNode_lookup _ _ _ Hlook). simpl.
  eexists. split; [reflexivity|]. simpl.
  destruct (List_insertHead_cases (Myalloc.free_list s) _ptr) as [[? _]|[_ ->]]; [done|].
  pose proof Hnd as Hnd'. rewrite Hperm in Hnd'.
  apply list.NoDup_cons in Hnd' as [Hgone _].
  split; [done|]. split.
  { intros x Hx. rewrite Hperm at 2. rewrite elem_of_cons. tauto. }
  split; [done|]. split; [done|].
  unfold available_memory, used_memory. simpl. rewrite !sum_sizes_total_size.
  rewrite (total_size_Permutation _ _ _ Hperm). simpl. lia.
Qed.

(** X13.  Given an address that is not in the allocated list (and has no free
    chunk right after it), [deallocate] does not return, unless exactly one
    chunk is allocated: then that chunk leaves the allocated list although it
    is another one, and the given address enters the free list. *)
Theorem deallocate_unknown_address (s : state) (_ptr : Z) :
  Myalloc.free_list s ≠ [] ->
  right_neighbour (Myalloc.arena s) _ptr ∉ Myalloc.free_list s ->
  _ptr ∉ Myalloc.allocated_list s ->
  (length (Myalloc.allocated_list s) ≠ 1%nat -> deallocate _ptr s = None) /\
  (length (Myalloc.allocated_list s) = 1%nat ->
   exists s', deallocate _ptr s = Some s' /\
              Myalloc.allocated_list s' = [] /\ _ptr ∈ Myalloc.free_list s').
Proof.
  intros Hne Hright Hnot. unfold right_neighbour in Hright.
  apply right_scan_None in Hright. apply List_findNode_None in Hnot.
  unfold deallocate. rewrite Hright.
  destruct (Myalloc.free_list s) as [|b0 l0] eqn:Hfree; [done|]. rewrite <- Hfree in *.
  simpl. rewrite Hnot, List_deleteNode_NULL.
  destruct (decide _) as [Hone|Hmany]; simpl.
  - split; [done|]. intros _. eexists. split; [reflexivity|]. simpl.
    split; [done|]. apply List_insertHead_elem_of.
  - split; [done|]. intros ?. done.
Qed.

(** X14.  When a free chunk starts right after the chunk at [_ptr], [deallocate]
    replaces its descriptor by one for [_ptr] at the head of the free list,
    leaves the allocated list as it is, and sets the header of [_ptr] to the
    two sizes plus one header; while that sum is at most 128 it is read back
    as such and [available_memory()] grows by the size of the chunk plus the
    header that is won back. *)
Theorem deallocate_merges_right (s : state) (_ptr : Z) :
  right_neighbour (Myalloc.arena s) _ptr ∈ Myalloc.free_list s ->
  _ptr ∉ Myalloc.free_list s ->
  merged_size (Myalloc.arena s) _ptr <= 128 ->
  exists (s' : state) (i : nat),
    deallocate _ptr s = Some s' /\
    Myalloc.free_list s !! i = Some (right_neighbour (Myalloc.arena s) _ptr) /\
    Myalloc.free_list s' = _ptr :: delete i (Myalloc.free_list s) /\
    Myalloc.allocated_list s' = Myalloc.allocated_list s /\
    chunk_size (Myalloc.arena s') _ptr = merged_size (Myalloc.arena s) _ptr /\
    available_memory s' =
      available_memory s + chunk_size (Myalloc.arena s) _ptr + HEADER_SIZE.
Proof.
  unfold merged_size, right_neighbour.
  set (c := chunk_size (Myalloc.arena s) _ptr).
  set (nb := _ptr + c + HEADER_SIZE).
  set (merged_size := c + HEADER_SIZE + chunk_size (Myalloc.arena s) nb).
  intros Hnb Hnew Hfit.
  destruct (right_scan (Myalloc.free_list s) nb) as [i|] eqn:Hscan;
    [|by apply right_scan_None in Hscan].
  pose proof (right_scan_Some _ _ _ Hscan) as Hlook.
  pose proof (delete_Permutation _ _ _ Hlook) as Hperm.
  unfold deallocate. fold c. fold nb. rewrite Hscan, Hlook. simpl.
  destruct (Myalloc.free_list s) as [|b0 l0] eqn:Hfree; [by apply elem_of_nil in Hnb|].
  rewrite <- Hfree in *.
  rewrite (List_deleteNode_lookup _ _ _ Hlook). simpl.
  assert (_ptr ∉ delete i (Myalloc.free_list s)) as Hgone.
  { intros Hin. by apply list_elem_of_delete_inv in Hin. }
  destruct (List_insertHead_cases (delete i (Myalloc.free_list s)) _ptr)
    as [[? _]|[_ Hins]]; [done|].
  eexists _, i. split; [reflexivity|]. simpl. rewrite Hins.
  pose proof (chunk_size_range (Myalloc.arena s) _ptr).
  pose proof (chunk_size_range (Myalloc.arena s) nb).
  assert (chunk_size (set_header (Myalloc.arena s) _ptr merged_size) _ptr = merged_size)
    as Hread.
  { rewrite chunk_size_set_header_eq. apply readback_exact.
    unfold merged_size, c, HEADER_SIZE in *. lia. }
  fold merged_size. repeat split; try done.
  unfold available_memory. simpl. rewrite !sum_sizes_total_size.
  rewrite (total_size_Permutation _ _ _ Hperm). simpl. rewrite Hread.
  rewrite (total_size_ext (Myalloc.arena s) _ (delete i _)).
  - unfold merged_size. lia.
  - intros b Hb. apply chunk_size_set_header_ne. by intros ->.
Qed.

Lemma deallocate_moves_chunk_witness :
  Myalloc.free_list two_chunks ≠ [] /\
  (right_neighbour (Myalloc.arena two_chunks) 8 ∉ Myalloc.free_list two_chunks) /\
  NoDup (Myalloc.allocated_list two_chunks) /\
  8 ∈ Myalloc.allocated_list two_chunks /\
  (8 ∉ Myalloc.free_list two_chunks) /\
  exists s',
    deallocate 8 two_chunks = Some s' /\
    Myalloc.allocated_list s' = [32] /\
    Myalloc.free_list s' = [8; 56] /\
    available_memory s' = 80 + 16 /\
    used_memory s' = 32 - 16.
Proof.
  assert (Myalloc.free_list two_chunks ≠ []) as Hne by (vm_compute; discriminate).
  assert (right_neighbour (Myalloc.arena two_chunks) 8 ∉ Myalloc.free_list two_chunks) as Hright
    by (apply (bool_decide_unpack _); vm_compute; reflexivity).
  assert (NoDup (Myalloc.allocated_list two_chunks)) as Hnd
    by (apply (bool_decide_unpack _); vm_compute; reflexivity).
  assert (8 ∈ Myalloc.allocated_list two_chunks) as Hin
    by (apply (bool_decide_unpack _); vm_compute; reflexivity).
  assert (8 ∉ Myalloc.free_list two_chunks) as Hnew
    by (apply (bool_decide_unpack _); vm_compute; reflexivity).
  split; [exact Hne|]. split; [exact Hright|]. split; [exact Hnd|].
  split; [exact Hin|]. split; [exact Hnew|].
  destruct (deallocate_moves_chunk two_chunks 8 Hne Hright Hnd Hin Hnew)
    as (s' & Hcall & _ & _ & Hfree & _ & Havail & Hused).
  exists s'. split; [exact Hcall|].
  split; [|split; [exact Hfree|split; [exact Havail|exact Hused]]].
  revert Hcall. vm_compute. intros [= <-]. reflexivity.
Defined.

Lemma deallocate_unknown_address_witness :
  Myalloc.free_list one_chunk ≠ [] /\
  (right_neighbour (Myalloc.arena one_chunk) 56 ∉ Myalloc.free_list one_chunk) /\
  (56 ∉ Myalloc.allocated_list one_chunk) /\
  Myalloc.allocated_list one_chunk = [8] /\
  exists s', deallocate 56 one_chunk = Some s' /\
             Myalloc.allocated_list s' = [] /\ 56 ∈ Myalloc.free_list s'.
Proof.
  assert (Myalloc.free_list one_chunk ≠ []) as Hne by (vm_compute; discriminate).
  assert (right_neighbour (Myalloc.arena one_chunk) 56 ∉ Myalloc.free_list one_chunk) as Hright
    by (apply (bool_decide_unpack _); vm_compute; reflexivity).
  assert (56 ∉ Myalloc.allocated_list one_chunk) as Hnot
    by (apply (bool_decide_unpack _); vm_compute; reflexivity).
  split; [exact Hne|]. split; [exact Hright|]. split; [exact Hnot|].
  split; [reflexivity|].
  exact (proj2 (deallocate_unknown_address one_chunk 56 Hne Hright Hnot) eq_refl).
Defined.

Lemma deallocate_merges_right_witness :
  right_neighbour (Myalloc.arena one_chunk) 8 ∈ Myalloc.free_list one_chunk /\
  (8 ∉ Myalloc.free_list one_chunk) /\
  merged_size (Myalloc.arena one_chunk) 8 <= 128 /\
  exists (s' : state) (i : nat),
    deallocate 8 one_chunk = Some s' /\
    Myalloc.free_list one_chunk !! i = Some (right_neighbour (Myalloc.arena one_chunk) 8) /\
    Myalloc.free_list s' = 8 :: delete i (Myalloc.free_list one_chunk) /\
    Myalloc.allocated_list s' = Myalloc.allocated_list one_chunk /\
    chunk_size (Myalloc.arena s') 8 = merged_size (Myalloc.arena one_chunk) 8 /\
    available_memory s' = available_memory one_chunk + chunk_size (Myalloc.arena one_chunk) 8 + HEADER_SIZE.
Proof.
  assert (right_neighbour (Myalloc.arena one_chunk) 8 ∈ Myalloc.free_list one_chunk) as Hnb
    by (apply (bool_decide_unpack _); vm_compute; reflexivity).
  assert (8 ∉ Myalloc.free_list one_chunk) as Hnew
    by (apply (bool_decide_unpack _); vm_compute; reflexivity).
  assert (merged_size (Myalloc.arena one_chunk) 8 <= 128) as Hfit
    by (vm_compute; discriminate).
  split; [exact Hnb|]. split; [exact Hnew|]. split; [exact Hfit|].
  exact (deallocate_merges_right one_chunk 8 Hnb Hnew Hfit).
Defined.

(** X15.  Once the free list is empty, no sequence of [deallocate] calls changes
    anything: the chunks stay allocated. *)
Theorem deallocate_on_empty_free_list (s : state) (ptrs : list Z) :
  Myalloc.free_list s = [] -> run (Deallocate <$> ptrs) s = Some s.
Proof.
  intros Hfree. induction ptrs as [|p ptrs IH]; simpl; [done|].
  by rewrite (deallocate_empty_free_list _ _ Hfree).
Qed.

Lemma deallocate_on_empty_free_list_witness :
  Myalloc.free_list exhausted = [] /\
  Myalloc.allocated_list exhausted = [44; 8] /\
  run (Deallocate <$> [44; 8]) exhausted = Some exhausted.
Proof.
  assert (Myalloc.free_list exhausted = []) as Hfree by reflexivity.
  split; [exact Hfree|]. split; [reflexivity|].
  exact (deallocate_on_empty_free_list exhausted [44; 8] Hfree).
Defined.

(** ** is_fragmented and compact_allocation *)

Lemma is_fragmented_no_pair s :
  (1 < length (Myalloc.free_list s))%nat ->
  no_adjacent_pair (Myalloc.arena s) (Myalloc.free_list s) ->
  is_fragmented s = Some (true, s).
Proof.
  intros Hlen Hnone. unfold is_fragmented, List_countNodes.
  destruct (Z.eqb_spec (Z.of_nat (length (Myalloc.free_list s))) 0) as [|_]; [lia|].
  destruct (Z.gtb_spec (Z.of_nat (length (Myalloc.free_list s))) 1) as [_|]; [|lia].
  destruct (scan_free_outcome (Myalloc.arena s) 0 (Myalloc.free_list s))
    as [[-> _]|(i & j & cb & nb & Hpair & _)]; [done|].
  destruct Hpair as (Hlt & Hi & Hj & Hadj & _).
  destruct (Hnone i j cb nb Hlt Hi Hj Hadj).
Qed.

Lemma is_fragmented_single s fb :
  Myalloc.free_list s = [fb] ->
  is_fragmented s
  = Some (existsb (fun curr_alloc => fb <? curr_alloc) (Myalloc.allocated_list s), s).
Proof. intros Hfree. unfold is_fragmented. by rewrite Hfree. Qed.

(** [is_fragmented] and one pass of the compaction loop leave the allocated
    list as it is. *)
Lemma is_fragmented_allocated_list s r s' :
  is_fragmented s = Some (r, s') ->
  Myalloc.allocated_list s' = Myalloc.allocated_list s.
Proof.
  unfold is_fragmented.
  destruct (_ =? 0); [by intros [= <- <-]|].
  destruct (_ >? 1).
  - set (a := scan_free _ _ _ _).
    destruct (Z.eqb_spec (has_adj a) 2) as [H2|_].
    + destruct (Z.eqb_spec (has_adj a) 1) as [|_]; [lia|].
      destruct (adjacent a ≫= _) as [adjacent_block|]; simpl; [|done].
      destruct (current a ≫= _) as [current_block|]; simpl; [|done].
      destruct (List_deleteNode _ _) as [free1|]; simpl; [|done].
      by intros [= <- <-].
    + simpl. destruct (has_adj a =? 1); [|by intros [= <- <-]].
      destruct (adjacent a ≫= _) as [adjacent_block|]; simpl; [|done].
      destruct (current a ≫= _) as [current_block|]; simpl; [|done].
      destruct (List_deleteNode _ _) as [free1|]; simpl; [|done].
      by intros [= <- <-].
  - destruct (head _); simpl; [|done]. by intros [= <- <-].
Qed.

Lemma compact_step_allocated_list dest s dest' s' :
  compact_step dest s = Some (dest', s') ->
  Myalloc.allocated_list s' = Myalloc.allocated_list s.
Proof.
  unfold compact_step. destruct (Myalloc.free_list s) as [|b0 next]; [done|].
  destruct (Myalloc.allocated_list s) as [|ab rest] eqn:Halloc; [by intros [= <- <-]|].
  destruct (ab >? _); [|intros [= <- <-]; by rewrite Halloc].
  destruct (List_deleteNode _ _) as [free1|]; simpl; [|done].
  destruct (List_findNode _ _); intros [= <- <-]; simpl; by rewrite Halloc.
Qed.

Lemma compact_loop_allocated_list fuel dest s dest' s' :
  compact_loop fuel dest s = Some (dest', s') ->
  Myalloc.allocated_list s' = Myalloc.allocated_list s.
Proof.
  revert dest s. induction fuel as [|fuel IH]; intros dest s; simpl; [done|].
  destruct (is_fragmented s) as [[[|] s1]|] eqn:Hfrag; simpl; [| |done].
  - destruct (compact_step dest s1) as [[dest1 s2]|] eqn:Hstep; simpl; [|done].
    intros Hloop. rewrite (IH _ _ Hloop).
    rewrite (compact_step_allocated_list _ _ _ _ Hstep).
    by apply is_fragmented_allocated_list in Hfrag.
  - intros [= <- <-]. by apply is_fragmented_allocated_list in Hfrag.
Qed.

Lemma update_walk_replicate d0 l done r l' r' :
  update_walk (Some d0) l done r = Some (l', r') ->
  l' = done ++ replicate (length l) (d0 + HEADER_SIZE) /\
  compacted_size r' =
    (compacted_size r + length (filter (fun x : Z => (x ≠ d0 + HEADER_SIZE)%Z) l))%nat.
Proof.
  revert done r. induction l as [|block next IH]; intros done r; simpl.
  { intros [= <- <-]. rewrite app_nil_r. split; [done|]. simpl. lia. }
  destruct (decide _) as [_|]; [|done]. intros Hwalk.
  apply IH in Hwalk as [-> Hcount]. split.
  - by rewrite <- app_assoc.
  - rewrite Hcount. simpl.
    destruct (Z.eqb_spec block (d0 + HEADER_SIZE)) as [->|Hne].
    + by rewrite filter_cons_False by (intros ?; done).
    + rewrite filter_cons_True by done. simpl. lia.
Qed.

(** X16.  Whenever [compact_allocation] returns after entering its loop, every
    node of the allocated list holds one and the same address, whatever the
    number of allocated chunks, and the count it returns is the number of
    nodes that held another address before. *)
Theorem compact_allocation_collapses (fuel : nat) (before after : list (option Z))
  (s s' : state) (r : report) :
  compact_allocation fuel before after s = Some (r, s') ->
  (s' = s /\ r = Report before after 0) \/
  exists d,
    Myalloc.allocated_list s' = replicate (length (Myalloc.allocated_list s)) d /\
    compacted_size r = length (filter (fun x => x ≠ d) (Myalloc.allocated_list s)).
Proof.
  unfold compact_allocation.
  destruct (_ =? 0); [intros [= <- <-]; by left|].
  destruct (_ =? 0); [intros [= <- <-]; by left|].
  destruct (Myalloc.allocated_list s) as [|a0 l0] eqn:Halloc; [intros [= <- <-]; by left|].
  destruct (Myalloc.free_list s) as [|f0 l1] eqn:Hfree; [intros [= <- <-]; by left|].
  destruct (compact_loop fuel None s) as [[dest s1]|] eqn:Hloop; simpl; [|done].
  apply compact_loop_allocated_list in Hloop. rewrite Hloop, Halloc.
  destruct dest as [d0|]; [|done].
  destruct (update_walk _ _ _ _) as [[allocated1 r1]|] eqn:Hwalk; simpl; [|done].
  intros [= <- <-]. right. exists (d0 + HEADER_SIZE).
  apply update_walk_replicate in Hwalk as [-> Hcount]. simpl in *.
  split; [done|]. by rewrite Hcount.
Qed.

Lemma compact_allocation_collapses_witness :
  exists r s',
    compact_allocation 20 (replicate 10 None) (replicate 10 None)
      main_before_compaction = Some (r, s') /\
    compacted_size r = 6%nat /\
    exists d,
      Myalloc.allocated_list s'
        = replicate (length (Myalloc.allocated_list main_before_compaction)) d /\
      compacted_size r
        = length (filter (fun x => x ≠ d) (Myalloc.allocated_list main_before_compaction)).
Proof.
  assert (exists r s',
            compact_allocation 20 (replicate 10 None) (replicate 10 None)
              main_before_compaction = Some (r, s') /\
            compacted_size r = 6%nat) as (r & s' & Hcall & Hcount).
  { assert ((fun o => compacted_size (fst o))
              <$> compact_allocation 20 (replicate 10 None) (replicate 10 None)
                    main_before_compaction = Some 6%nat) as Hcount
      by (vm_compute; reflexivity).
    destruct (compact_allocation 20 (replicate 10 None) (replicate 10 None)
                main_before_compaction) as [[r s']|]; [|discriminate].
    injection Hcount as Hcount. by exists r, s'. }
  exists r, s'. split; [exact Hcall|]. split; [exact Hcount|].
  destruct (compact_allocation_collapses _ _ _ _ _ _ Hcall) as [[_ Hr]|Hsame].
  - rewrite Hr in Hcount. discriminate.
  - exact Hsame.
Defined.

Lemma leftmost_scan_least next j lm :
  forall b, b ∈ snd lm :: next -> snd (leftmost_scan next j lm) <= b.
Proof.
  revert j lm. induction next as [|block next IH]; intros j lm b Hb; simpl.
  { apply list_elem_of_singleton in Hb as ->. lia. }
  destruct (Z.ltb_spec block (snd lm)) as [Hlt|Hge].
  - assert (snd (leftmost_scan next (S j) (j, block)) <= block) as Hle
      by (apply IH; apply list_elem_of_here).
    apply elem_of_cons in Hb as [->|Hb]; [simpl in *; lia|].
    apply IH. simpl. done.
  - apply elem_of_cons in Hb as [->|Hb]; [apply IH; apply list_elem_of_here|].
    apply elem_of_cons in Hb as [->|Hb].
    + assert (snd (leftmost_scan next (S j) lm) <= snd lm) as Hle
        by (apply IH; apply list_elem_of_here).
      lia.
    + apply IH. by apply list_elem_of_further.
Qed.

Lemma leftmost_scan_elem next j lm :
  snd (leftmost_scan next j lm) ∈ snd lm :: next.
Proof.
  revert j lm. induction next as [|block next IH]; intros j lm; simpl.
  { apply list_elem_of_here. }
  destruct (block <? snd lm).
  - apply list_elem_of_further. apply (IH (S j) (j, block)).
  - specialize (IH (S j) lm). apply elem_of_cons in IH as [->|IH].
    + apply list_elem_of_here.
    + by do 2 apply list_elem_of_further.
Qed.

(** A pass of the loop does nothing when the head of the allocated list lies
    below every free chunk. *)
Lemma compact_step_idle dest s ab rest :
  Myalloc.free_list s ≠ [] ->
  Myalloc.allocated_list s = ab :: rest ->
  (forall q, q ∈ Myalloc.free_list s -> ab <= q) ->
  compact_step dest s = Some (dest, s).
Proof.
  intros Hne Halloc Hlow. unfold compact_step.
  destruct (Myalloc.free_list s) as [|b0 next]; [done|]. rewrite Halloc.
  pose proof (leftmost_scan_elem next 1 (0%nat, b0)) as Hin. simpl in Hin.
  specialize (Hlow _ Hin).
  by destruct (Z.gtb_spec ab (snd (leftmost_scan next 1 (0%nat, b0)))) as [|_]; [lia|].
Qed.

(** X17.  [compact_allocation] never returns when more than one chunk is free, no
    two free chunks are adjacent, and the head of the allocated list (the
    chunk allocated last) lies below every free chunk: each pass of its loop
    finds the arena fragmented and leaves the state as it is. *)
Theorem compact_allocation_spins (s : state) (ab : Z) (rest : list Z) :
  Myalloc.used_memory s ≠ 0 ->
  Myalloc.available_memory s ≠ 0 ->
  (1 < length (Myalloc.free_list s))%nat ->
  no_adjacent_pair (Myalloc.arena s) (Myalloc.free_list s) ->
  Myalloc.allocated_list s = ab :: rest ->
  (forall q, q ∈ Myalloc.free_list s -> ab <= q) ->
  is_fragmented s = Some (true, s) /\
  (forall dest, compact_step dest s = Some (dest, s)) /\
  (forall fuel before after, compact_allocation fuel before after s = None).
Proof.
  intros Hused Havail Hlen Hnone Halloc Hlow.
  assert (Myalloc.free_list s ≠ []) as Hne by (intros Heq; rewrite Heq in Hlen; simpl in Hlen; lia).
  pose proof (is_fragmented_no_pair s Hlen Hnone) as Hfrag.
  assert (forall dest, compact_step dest s = Some (dest, s)) as Hstep
    by (intros dest; by eapply compact_step_idle).
  split; [done|]. split; [done|].
  assert (forall fuel dest, compact_loop fuel dest s = None) as Hloop.
  { induction fuel as [|fuel IH]; intros dest; simpl; [done|].
    rewrite Hfrag. simpl. rewrite Hstep. simpl. apply IH. }
  intros fuel before after. unfold compact_allocation.
  destruct (Z.eqb_spec (Myalloc.used_memory s) 0) as [|_]; [done|].
  destruct (Z.eqb_spec (Myalloc.available_memory s) 0) as [|_]; [done|].
  rewrite Halloc. destruct (Myalloc.free_list s) as [|f0 l1]; [done|].
  by rewrite Hloop.
Qed.

Lemma compact_allocation_spins_witness :
  Myalloc.used_memory hole_in_the_middle ≠ 0 /\
  Myalloc.available_memory hole_in_the_middle ≠ 0 /\
  sizes (Myalloc.arena hole_in_the_middle) (Myalloc.free_list hole_in_the_middle)
    = [(20, 18); (58, 78)] /\
  Myalloc.allocated_list hole_in_the_middle = [8; 46] /\
  (forall fuel before after,
     compact_allocation fuel before after hole_in_the_middle = None).
Proof.
  assert (Myalloc.used_memory hole_in_the_middle ≠ 0) as Hused by discriminate.
  assert (Myalloc.available_memory hole_in_the_middle ≠ 0) as Havail by discriminate.
  assert (1 < length (Myalloc.free_list hole_in_the_middle))%nat as Hlen
    by (vm_compute; lia).
  assert (no_adjacent_pair (Myalloc.arena hole_in_the_middle)
            (Myalloc.free_list hole_in_the_middle)) as Hnone.
  { intros i j cb nb Hlt Hi Hj.
    change (Myalloc.free_list hole_in_the_middle) with [20; 58] in Hi, Hj.
    destruct i as [|[|i]]; destruct j as [|[|j]]; simpl in Hi, Hj; try lia; try done.
    injection Hi as <-. injection Hj as <-.
    apply (bool_decide_unpack _). vm_compute. reflexivity. }
  assert (Myalloc.allocated_list hole_in_the_middle = [8; 46]) as Halloc by reflexivity.
  assert (forall q, q ∈ Myalloc.free_list hole_in_the_middle -> 8 <= q) as Hlow.
  { intros q Hq. change (Myalloc.free_list hole_in_the_middle) with [20; 58] in Hq.
    apply elem_of_cons in Hq as [->|Hq]; [lia|].
    apply list_elem_of_singleton in Hq as ->. lia. }
  split; [exact Hused|]. split; [exact Havail|]. split; [reflexivity|].
  split; [exact Halloc|].
  exact (proj2 (proj2 (compact_allocation_spins hole_in_the_middle 8 [46]
                         Hused Havail Hlen Hnone Halloc Hlow))).
Defined.

(** X18.  On an arena that is not fragmented (one free chunk, no allocated chunk
    above it) and has a chunk allocated, the loop of [compact_allocation]
    ends at its first test with [dest] never assigned, and the walk over the
    allocated list then reads [dest]: the call does not return normally. *)
Theorem compact_allocation_unfragmented (s : state) (fb : Z) (fuel : nat)
  (before after : list (option Z)) :
  Myalloc.used_memory s ≠ 0 ->
  Myalloc.available_memory s ≠ 0 ->
  Myalloc.free_list s = [fb] ->
  Myalloc.allocated_list s ≠ [] ->
  (forall a, a ∈ Myalloc.allocated_list s -> a <= fb) ->
  compact_loop (S fuel) None s = Some (None, s) /\
  compact_allocation (S fuel) before after s = None.
Proof.
  intros Hused Havail Hfree Hne Hbelow.
  assert (is_fragmented s = Some (false, s)) as Hfrag.
  { rewrite (is_fragmented_single s fb Hfree). do 2 f_equal.
    apply not_true_is_false. intros Hex. apply existsb_exists in Hex as (a & Hin & Hlt).
    apply list_elem_of_In in Hin. specialize (Hbelow a Hin). apply Z.ltb_lt in Hlt. lia. }
  assert (compact_loop (S fuel) None s = Some (None, s)) as Hloop
    by (simpl; by rewrite Hfrag).
  split; [done|]. unfold compact_allocation.
  destruct (Z.eqb_spec (Myalloc.used_memory s) 0) as [|_]; [done|].
  destruct (Z.eqb_spec (Myalloc.available_memory s) 0) as [|_]; [done|].
  destruct (Myalloc.allocated_list s) as [|a0 l0] eqn:Halloc; [done|].
  rewrite Hfree, Hloop. simpl. by rewrite Halloc.
Qed.

Lemma compact_allocation_unfragmented_witness :
  Myalloc.used_memory one_chunk ≠ 0 /\
  Myalloc.available_memory one_chunk ≠ 0 /\
  Myalloc.free_list one_chunk = [32] /\
  Myalloc.allocated_list one_chunk = [8] /\
  compact_loop 1 None one_chunk = Some (None, one_chunk) /\
  compact_allocation 1 [None] [None] one_chunk = None.
Proof.
  assert (Myalloc.used_memory one_chunk ≠ 0) as Hused by discriminate.
  assert (Myalloc.available_memory one_chunk ≠ 0) as Havail by discriminate.
  assert (Myalloc.free_list one_chunk = [32]) as Hfree by reflexivity.
  assert (Myalloc.allocated_list one_chunk ≠ []) as Hne by discriminate.
  assert (forall a, a ∈ Myalloc.allocated_list one_chunk -> a <= 32) as Hbelow.
  { intros a Ha. change (Myalloc.allocated_list one_chunk) with [8] in Ha.
    apply list_elem_of_singleton in Ha as ->. lia. }
  split; [exact Hused|]. split; [exact Havail|]. split; [exact Hfree|].
  split; [reflexivity|].
  exact (compact_allocation_unfragmented one_chunk 32 0 [None] [None]
           Hused Havail Hfree Hne Hbelow).
Defined.

(** ** The allocated list never holds an address twice *)

Lemma allocate_allocated_NoDup s s' _size ptr :
  NoDup (Myalloc.allocated_list s) ->
  allocate _size s = Some (ptr, s') -> NoDup (Myalloc.allocated_list s').
Proof.
  intros Hnd. unfold allocate. destruct (0 <? _size); [simpl|done].
  destruct (Myalloc.free_list s) as [|b0 l0] eqn:Hfree; [by intros [= <- <-]|].
  rewrite <- Hfree.
  destruct (find_chunk _ _ _ _) as [p|]; [|by intros [= <- <-]]. simpl.
  assert (NoDup (List_insertHead (Myalloc.allocated_list s) p)) as Hins.
  { destruct (List_insertHead_cases (Myalloc.allocated_list s) p) as [[_ ->]|[Hnot ->]];
      [done|by constructor]. }
  destruct (_ >? 8).
  - destruct (List_findNode _ _) as [i|]; simpl; [|done]. by intros [= <- <-].
  - destruct (List_deleteNode _ _) as [free'|]; simpl; [|done]. by intros [= <- <-].
Qed.

Lemma deallocate_allocated_NoDup s s' _ptr :
  NoDup (Myalloc.allocated_list s) ->
  deallocate _ptr s = Some s' -> NoDup (Myalloc.allocated_list s').
Proof.
  intros Hnd. unfold deallocate.
  destruct (Myalloc.free_list s) as [|b0 l0] eqn:Hfree; [by intros [= <-]|].
  rewrite <- Hfree.
  destruct (right_scan _ _) as [i|].
  - destruct (Myalloc.free_list s !! i) as [block|]; simpl; [|done].
    destruct (List_deleteNode _ _) as [free1|]; simpl; [|done]. by intros [= <-].
  - simpl. destruct (List_deleteNode _ _) as [allocated1|] eqn:Hdel; simpl; [|done].
    intros [= <-]. simpl. apply List_deleteNode_sublist in Hdel.
    by eapply sublist_NoDup.
Qed.

(** X19.  Through every sequence of [allocate], [deallocate] and [is_fragmented]
    calls the allocated list stays free of duplicate addresses. *)
Theorem run_allocated_NoDup (cs : list call) (s s' : state) :
  NoDup (Myalloc.allocated_list s) ->
  run cs s = Some s' ->
  NoDup (Myalloc.allocated_list s').
Proof.
  revert s. induction cs as [|c cs IH]; intros s Hnd; simpl; [by intros [= <-]|].
  destruct (step c s) as [s1|] eqn:Hstep; simpl; [|done].
  apply IH. destruct c as [_size returned|_ptr|returned]; simpl in Hstep.
  - destruct (allocate _size s) as [[ptr s2]|] eqn:Ha; simpl in Hstep; [|done].
    destruct (decide _); [|done]. injection Hstep as <-.
    by eapply allocate_allocated_NoDup.
  - by eapply deallocate_allocated_NoDup.
  - destruct (is_fragmented s) as [[b s2]|] eqn:Hf; simpl in Hstep; [|done].
    destruct (decide _); [|done]. injection Hstep as <-.
    by rewrite (is_fragmented_allocated_list _ _ _ Hf).
Qed.

Lemma is_Some_compute {A} (o : option A) :
  match o with Some _ => true | None => false end = true -> exists x, o = Some x.
Proof. destruct o as [x|]; [by exists x|done]. Qed.

Lemma run_allocated_NoDup_witness :
  NoDup (Myalloc.allocated_list (fresh_arena 128 BEST_FIT)) /\
  exists s', run main_script (fresh_arena 128 BEST_FIT) = Some s' /\
             NoDup (Myalloc.allocated_list s').
Proof.
  assert (NoDup (Myalloc.allocated_list (fresh_arena 128 BEST_FIT))) as Hnd
    by constructor.
  split; [exact Hnd|].
  destruct (is_Some_compute (run main_script (fresh_arena 128 BEST_FIT))
              ltac:(vm_compute; reflexivity)) as [s' Hrun].
  exists s'. split; [exact Hrun|].
  exact (run_allocated_NoDup main_script _ _ Hnd Hrun).
Defined.

(** ** Witnesses for the search and the header writes *)

Lemma first_fit_first_eligible_witness :
  first_fit (Myalloc.arena three_chunks) 20 (Myalloc.free_list three_chunks) = Some 80 /\
  first_eligible (Myalloc.arena three_chunks) 20 (Myalloc.free_list three_chunks) 80.
Proof.
  assert (first_fit (Myalloc.arena three_chunks) 20 (Myalloc.free_list three_chunks)
          = Some 80) as Hfit by (vm_compute; reflexivity).
  split; [exact Hfit|]. exact (first_fit_first_eligible _ _ _ _ Hfit).
Defined.

Lemma three_chunks_headers_nonnegative :
  headers_nonnegative (Myalloc.arena three_chunks) (Myalloc.free_list three_chunks).
Proof.
  assert (Myalloc.free_list three_chunks = [8; 80]) as -> by (vm_compute; reflexivity).
  repeat constructor; vm_compute; discriminate.
Qed.

Lemma best_fit_smallest_eligible_witness :
  headers_nonnegative (Myalloc.arena three_chunks) (Myalloc.free_list three_chunks) /\
  find_chunk BEST_FIT (Myalloc.arena three_chunks) 10 (Myalloc.free_list three_chunks)
    = Some 8 /\
  smallest_eligible (Myalloc.arena three_chunks) 10 (Myalloc.free_list three_chunks) 8.
Proof.
  pose proof three_chunks_headers_nonnegative as Hnonneg.
  assert (find_chunk BEST_FIT (Myalloc.arena three_chunks) 10
            (Myalloc.free_list three_chunks) = Some 8) as Hfit
    by (vm_compute; reflexivity).
  split; [exact Hnonneg|]. split; [exact Hfit|].
  exact (best_fit_smallest_eligible _ _ _ _ Hnonneg Hfit).
Defined.

Lemma worst_fit_largest_eligible_witness :
  headers_nonnegative (Myalloc.arena three_chunks) (Myalloc.free_list three_chunks) /\
  find_chunk WORST_FIT (Myalloc.arena three_chunks) 10 (Myalloc.free_list three_chunks)
    = Some 80 /\
  largest_eligible (Myalloc.arena three_chunks) 10 (Myalloc.free_list three_chunks) 80.
Proof.
  pose proof three_chunks_headers_nonnegative as Hnonneg.
  assert (find_chunk WORST_FIT (Myalloc.arena three_chunks) 10
            (Myalloc.free_list three_chunks) = Some 80) as Hfit
    by (vm_compute; reflexivity).
  split; [exact Hnonneg|]. split; [exact Hfit|].
  exact (worst_fit_largest_eligible _ _ _ _ Hnonneg Hfit).
Defined.

Lemma allocate_writes_two_bytes_witness :
  allocate 16 (fresh_arena 128 FIRST_FIT) = Some (Some 8, after_allocate_16) /\
  8 ≠ 8 - HEADER_SIZE /\ 8 ≠ 8 + 16 /\
  Myalloc.arena after_allocate_16 8 = Myalloc.arena (fresh_arena 128 FIRST_FIT) 8.
Proof.
  assert (allocate 16 (fresh_arena 128 FIRST_FIT) = Some (Some 8, after_allocate_16))
    as Ha by reflexivity.
  assert (8 ≠ 8 - HEADER_SIZE) as Hne1 by discriminate.
  assert (8 ≠ 8 + 16) as Hne2 by discriminate.
  split; [exact Ha|]. split; [exact Hne1|]. split; [exact Hne2|].
  exact (allocate_writes_two_bytes _ _ _ _ 8 Ha Hne1 Hne2).
Defined.

Lemma deallocate_writes_one_byte_witness :
  exists s',
    deallocate 8 one_chunk = Some s' /\
    24 ≠ 8 - HEADER_SIZE /\
    Myalloc.arena s' 24 = Myalloc.arena one_chunk 24.
Proof.
  destruct (is_Some_compute (deallocate 8 one_chunk) ltac:(vm_compute; reflexivity))
    as [s' Hcall].
  assert (24 ≠ 8 - HEADER_SIZE) as Hne by discriminate.
  exists s'. split; [exact Hcall|]. split; [exact Hne|].
  exact (deallocate_writes_one_byte _ _ _ 24 Hcall Hne).
Defined.

Lemma is_fragmented_writes_one_byte_witness :
  exists r s',
    is_fragmented three_chunks = Some (r, s') /\
    exists block, forall a,
      a ≠ block - HEADER_SIZE ->
      Myalloc.arena s' a = Myalloc.arena three_chunks a.
Proof.
  destruct (is_Some_compute (is_fragmented three_chunks) ltac:(vm_compute; reflexivity))
    as [[r s'] Hcall].
  exists r, s'. split; [exact Hcall|].
  exact (is_fragmented_writes_one_byte _ _ _ Hcall).
Defined.
